(** * Port forwarding over a Live Share session

    A shallow embedding of [port_forwarder.go] (package [liveshare]) and the
    properties of its forwarding engine: port announcement, the connection
    handler with its deferred closes, the single-slot error channel, the
    accept loop and the two entry points [ForwardToListener] and [Forward].

    Goroutine code is written in a small free monad [prog] over the
    operations the Go code performs on its surroundings (session calls,
    closes, channel operations, [go] statements).  One interpreter,
    [perform], gives the operations their meaning on a [world]; a scheduler
    ([step], [exec]) interleaves the goroutines. *)

From Stdlib Require Import ZArith String List Bool Arith Lia DecimalString.
From Stdlib.Strings Require Byte.
Import ListNotations.
Local Open Scope string_scope.
Local Open Scope list_scope.

Set Implicit Arguments.

(** ** Go values *)

(** Non-nil values of Go's [error] interface.  [io_EOF] and the two context
    errors are the sentinel values of the standard library (compared by
    identity in Go, hence constructors of their own); [errorString] is what
    [fmt.Errorf] without [%w] and [errors.New] build. *)
Inductive goerr : Type :=
| io_EOF
| context_Canceled
| context_DeadlineExceeded
| errorString (s : string).

(** An [error] is nil or a non-nil error value. *)
Definition error : Type := option goerr.
Definition nil_error : error := None.

(** The [Error() string] method. *)
Definition Error (e : goerr) : string :=
  match e with
  | io_EOF => "EOF"
  | context_Canceled => "context canceled"
  | context_DeadlineExceeded => "context deadline exceeded"
  | errorString s => s
  end.

(** The verbs [%d] and [%v] of [fmt]. *)
Definition fmt_d (n : Z) : string := NilZero.string_of_int (Z.to_int n).
Definition fmt_v (e : goerr) : string := Error e.

(** [closeErr != io.EOF] *)
Definition isEOF (e : error) : bool :=
  match e with
  | Some io_EOF => true
  | _ => false
  end.

(** Modelled from the spec: the type [channelID] is declared elsewhere in the
    package; the spec describes it as an opaque token that is only copied. *)
Definition channelID : Type := nat.

(** An [io.ReadWriteCloser] ([net.Conn], [ssh.Channel]): what its successive
    [Read] calls return, how [Write] answers given the bytes it has accepted
    so far, and the result of [Close]. *)
Record ReadWriteCloser : Type := mkRWC {
  rwc_id : nat;
  rwc_reads : list (list Byte.byte * error);
  rwc_write : list Byte.byte -> list Byte.byte -> Z * error;
  rwc_close : error
}.

(** The two ends of a forwarded connection. *)
Inductive side : Type := Local | Remote.

Inductive Stream : Type :=
| LocalConn (conn : ReadWriteCloser)
| RemoteChannel (channel : ReadWriteCloser).

Definition stream_side (s : Stream) : side :=
  match s with LocalConn _ => Local | RemoteChannel _ => Remote end.

Definition stream_rwc (s : Stream) : ReadWriteCloser :=
  match s with LocalConn c => c | RemoteChannel c => c end.

(** Modelled from the spec: the [Session] type and its methods
    [startSharing] and [openStreamingChannel] live elsewhere in the package.
    They are taken as given behaviours: [startSharing(ctx, name, port)]
    yields a channel identifier or an error, and
    [openStreamingChannel(ctx, id)] yields a duplex stream or an error; the
    latter may answer differently on each call, so it also receives the
    number of channels the session has been asked to open before. *)
Record Session : Type := mkSession {
  startSharing : string -> Z -> channelID * error;
  openStreamingChannel : nat -> channelID -> ReadWriteCloser * error
}.

(** [type PortForwarder struct] *)
Record PortForwarder : Type := mkPortForwarder {
  session : Session;
  name : string;
  remotePort : Z
}.

(** [func NewPortForwarder] *)
Definition NewPortForwarder (s : Session) (nm : string) (port : Z) : PortForwarder :=
  mkPortForwarder s nm port.

(** A [context.Context]: [cause] is what [ctx.Err()] answers once [Done] is
    closed.  The standard library's contexts answer a non-nil error there
    ([conforming]); the interface itself does not force it. *)
Record Context : Type := mkContext { cause : error }.

Definition conforming (ctx : Context) : Prop := cause ctx <> None.

(** ** Goroutines and their programs *)

(** The function literals started with [go], with the variables they capture. *)
Inductive gname : Type :=
| AcceptLoop (fwd : PortForwarder) (ctx : Context) (id : channelID)
| ListenerHandler (fwd : PortForwarder) (ctx : Context) (id : channelID) (conn : ReadWriteCloser)
| StreamHandler (fwd : PortForwarder) (ctx : Context) (id : channelID) (conn : ReadWriteCloser).

(** The two cases of the [select] in [awaitError]. *)
Inductive select_case : Type :=
| RecvErr (err : error)
| DoneClosed.

(** What the code asks of its surroundings; the index is the Go result type. *)
Inductive action : Type -> Type :=
| StartSharing (s : Session) (nm : string) (port : Z) : action (channelID * error)
| OpenStreamingChannel (s : Session) (id : channelID) : action (ReadWriteCloser * error)
| Close (closer : Stream) : action error
| Accept : action (ReadWriteCloser * error)
| Go (g : gname) : action unit
| GoCopy (dst src : Stream) : action unit
| MakeChan : action unit
| WaitDone : action unit
| CtxErr (ctx : Context) : action error
| TrySend (err : error) : action unit
| Send (err : error) : action unit
| Select : action select_case.

(** Programs: return, jump back to the head of the goroutine's [for] loop,
    or perform an action and go on with its result. *)
Inductive prog (A : Type) : Type :=
| Ret (a : A)
| Continue
| Bind (X : Type) (a : action X) (k : X -> prog A).

Arguments Ret {A} a.
Arguments Continue {A}.
Arguments Bind {A X} a k.

Fixpoint bind {A B : Type} (p : prog A) (f : A -> prog B) : prog B :=
  match p with
  | Ret a => f a
  | Continue => Continue
  | Bind a k => Bind a (fun x => bind (k x) f)
  end.

Definition call {X : Type} (a : action X) : prog X := Bind a (fun x => Ret x).

Notation "x <- p ;; q" := (bind p (fun x => q))
  (at level 61, p at next level, right associativity).
Notation "' pat <- p ;; q" := (bind p (fun x => match x with pat => q end))
  (at level 61, pat pattern, p at next level, right associativity).

(** *** The functions of port_forwarder.go *)

(** [func (fwd *PortForwarder) shareRemotePort].  The wrapped error is
    assigned to the local [err]; the [return] statement does not use it. *)
Definition shareRemotePort (fwd : PortForwarder) (ctx : Context) : prog (channelID * error) :=
  '(id, err) <- call (StartSharing (session fwd) (name fwd) (remotePort fwd)) ;;
  let err :=
    match err with
    | Some e =>
        Some (errorString ("failed to share remote port " ++ fmt_d (remotePort fwd)
                             ++ ": " ++ fmt_v e))
    | None => err
    end in
  Ret (id, nil_error).

(** [func awaitError] *)
Definition awaitError (ctx : Context) : prog error :=
  c <- call Select ;;
  match c with
  | RecvErr err => Ret err
  | DoneClosed => call (CtxErr ctx)
  end.

(** [func safeClose]; [*err] is passed in and the new [*err] returned. *)
Definition safeClose (closer : Stream) (err : error) : prog error :=
  closeErr <- call (Close closer) ;;
  Ret (match err with
       | None => closeErr
       | Some _ => err
       end).

(** The second deferred function of [handleConnection]. *)
Definition closeChannel (channel : ReadWriteCloser) (err : error) : prog error :=
  closeErr <- call (Close (RemoteChannel channel)) ;;
  Ret (match err with
       | None => if isEOF closeErr then err else closeErr
       | Some _ => err
       end).

(** [defer d] around a body with the named result [err]: the deferred call
    runs when the body returns and may replace the result. *)
Definition defer (d : error -> prog error) (body : prog error) : prog error :=
  err <- body ;; d err.

(** [func (fwd *PortForwarder) handleConnection] *)
Definition handleConnection (fwd : PortForwarder) (ctx : Context) (id : channelID)
    (conn : ReadWriteCloser) : prog error :=
  defer (safeClose (LocalConn conn))
    ('(channel, err) <- call (OpenStreamingChannel (session fwd) id) ;;
     match err with
     | Some e =>
         Ret (Some (errorString
                ("error opening streaming channel for new connection: " ++ fmt_v e)))
     | None =>
         defer (closeChannel channel)
           (_ <- call (GoCopy (LocalConn conn) (RemoteChannel channel)) ;;
            _ <- call (GoCopy (RemoteChannel channel) (LocalConn conn)) ;;
            _ <- call WaitDone ;;
            call (CtxErr ctx))
     end).

(** The closure [sendError] of [ForwardToListener]. *)
Definition sendError (err : error) : prog unit := call (TrySend err).

(** One turn of the [for] loop of the accepting goroutine. *)
Definition acceptLoop (fwd : PortForwarder) (ctx : Context) (id : channelID) : prog unit :=
  '(conn, err) <- call Accept ;;
  match err with
  | Some _ => _ <- sendError err ;; Ret tt
  | None => _ <- call (Go (ListenerHandler fwd ctx id conn)) ;; Continue
  end.

(** The body of each goroutine. *)
Definition body (g : gname) : prog unit :=
  match g with
  | AcceptLoop fwd ctx id => acceptLoop fwd ctx id
  | ListenerHandler fwd ctx id conn =>
      err <- handleConnection fwd ctx id conn ;;
      match err with
      | Some _ => sendError err
      | None => Ret tt
      end
  | StreamHandler fwd ctx id conn =>
      err <- handleConnection fwd ctx id conn ;;
      match err with
      | Some _ => call (Send err)
      | None => Ret tt
      end
  end.

(** [func (fwd *PortForwarder) ForwardToListener]; the listener is part of
    the world the program runs in. *)
Definition ForwardToListener (fwd : PortForwarder) (ctx : Context) : prog error :=
  '(id, err) <- shareRemotePort fwd ctx ;;
  match err with
  | Some _ => Ret err
  | None =>
      _ <- call MakeChan ;;
      _ <- call (Go (AcceptLoop fwd ctx id)) ;;
      awaitError ctx
  end.

(** [func (fwd *PortForwarder) Forward] *)
Definition Forward (fwd : PortForwarder) (ctx : Context) (conn : ReadWriteCloser) : prog error :=
  '(id, err) <- shareRemotePort fwd ctx ;;
  match err with
  | Some _ => _ <- call (Close (LocalConn conn)) ;; Ret err
  | None =>
      _ <- call MakeChan ;;
      _ <- call (Go (StreamHandler fwd ctx id conn)) ;;
      awaitError ctx
  end.

(** ** The world the goroutines run in *)

(** Calls that leave the forwarder, in the order they were made (newest
    first). *)
Inductive event : Type :=
| EvStartSharing (nm : string) (port : Z)
| EvOpenChannel (id : channelID)
| EvClose (sd : side) (id : nat)
| EvGo (g : gname)
| EvGoCopy (dst src : Stream).

(** The two kinds of termination signal, for the record of the order in
    which they occurred. *)
Inductive signal : Type :=
| SigCancel
| SigError (err : error).

Record world : Type := mkWorld {
  done : bool;                              (* is ctx.Done() closed? *)
  errc : option error;                      (* the buffer of [errc], capacity 1 *)
  listener : list (ReadWriteCloser * error);(* what the next Accept calls return *)
  opened : nat;                             (* channels asked of the session so far *)
  trace : list event;                       (* newest first *)
  fired : list signal;                      (* cancellation and send attempts, oldest first *)
  recvd : list error                        (* values awaitError took out of [errc] *)
}.

Definition log (e : event) (w : world) : world :=
  mkWorld (done w) (errc w) (listener w) (opened w) (e :: trace w) (fired w) (recvd w).

Definition cancel (w : world) : world :=
  mkWorld true (errc w) (listener w) (opened w) (trace w) (fired w ++ [SigCancel]) (recvd w).

(** A send statement on [errc]: the value goes into the buffer when it is
    empty; [fired] records the attempt either way. *)
Definition offer (err : error) (w : world) : world :=
  mkWorld (done w)
          (match errc w with None => Some err | Some e => Some e end)
          (listener w) (opened w) (trace w) (fired w ++ [SigError err]) (recvd w).

Definition take (err : error) (w : world) : world :=
  mkWorld (done w) None (listener w) (opened w) (trace w) (fired w) (recvd w ++ [err]).

(** [make(chan error, 1)]: a fresh channel, its buffer empty, nothing sent
    to it or received from it yet. *)
Definition make_chan (w : world) : world :=
  mkWorld (done w) None (listener w) (opened w) (trace w)
          (filter (fun s => match s with SigCancel => true | SigError _ => false end) (fired w))
          [].

Definition next_accept (w : world) : world :=
  mkWorld (done w) (errc w) (tl (listener w)) (opened w) (trace w) (fired w) (recvd w).

Definition bump_opened (w : world) : world :=
  mkWorld (done w) (errc w) (listener w) (S (opened w)) (trace w) (fired w) (recvd w).

(** The errors handed to [errc] so far, oldest first. *)
Fixpoint errors_of (l : list signal) : list error :=
  match l with
  | [] => []
  | SigCancel :: l' => errors_of l'
  | SigError e :: l' => e :: errors_of l'
  end.

Definition sent (w : world) : list error := errors_of (fired w).

(** [ctx.Err()] *)
Definition ctx_Err (ctx : Context) (w : world) : error :=
  if done w then cause ctx else nil_error.

(** One action on the world.  [None]: the action cannot proceed now (the
    goroutine is blocked).  [prefer_done] stands for the choice Go's
    [select] makes when several of its cases are ready. *)
Definition perform (prefer_done : bool) {X : Type} (a : action X) (w : world)
    : option (X * world) :=
  match a in action T return option (T * world) with
  | StartSharing s nm port =>
      Some (startSharing s nm port, log (EvStartSharing nm port) w)
  | OpenStreamingChannel s id =>
      Some (openStreamingChannel s (opened w) id, log (EvOpenChannel id) (bump_opened w))
  | Close closer =>
      Some (rwc_close (stream_rwc closer),
            log (EvClose (stream_side closer) (rwc_id (stream_rwc closer))) w)
  | Accept =>
      match listener w with
      | [] => None
      | r :: _ => Some (r, next_accept w)
      end
  | Go g => Some (tt, log (EvGo g) w)
  | GoCopy dst src =>
      Some (tt, log (EvGoCopy dst src) w)
  | MakeChan => Some (tt, make_chan w)
  | WaitDone => if done w then Some (tt, w) else None
  | CtxErr ctx => Some (ctx_Err ctx w, w)
  | TrySend err => Some (tt, offer err w)
  | Send err =>
      match errc w with
      | None => Some (tt, offer err w)
      | Some _ => None
      end
  | Select =>
      match errc w with
      | Some e =>
          if prefer_done && done w then Some (DoneClosed, w)
          else Some (RecvErr e, take e w)
      | None => if done w then Some (DoneClosed, w) else None
      end
  end.

(** The goroutines an action starts. *)
Definition spawned {X : Type} (a : action X) : list gname :=
  match a with
  | Go g => [g]
  | _ => []
  end.

(** One step of one goroutine; [head] is the head of its [for] loop. *)
Definition tstep (prefer_done : bool) {A : Type} (head : prog A) (p : prog A) (w : world)
    : option (prog A * world * list gname) :=
  match p with
  | Ret _ => None
  | Continue => Some (head, w, [])
  | Bind a k =>
      match perform prefer_done a w with
      | Some (x, w') => Some (k x, w', spawned a)
      | None => None
      end
  end.

(** *** One goroutine on its own

    [runs c c']: the goroutine gets from [c] to [c'] by its own steps, the
    context being cancelled at any moment in between. *)
Inductive runs {A : Type} : prog A * world -> prog A * world -> Prop :=
| runs_refl : forall c, runs c c
| runs_step : forall p w p' w' gs c,
    tstep false Continue p w = Some (p', w', gs) ->
    runs (p', w') c ->
    runs (p, w) c
| runs_cancel : forall p w c,
    done w = false ->
    runs (p, cancel w) c ->
    runs (p, w) c.

(** Running one goroutine for at most [fuel] steps, collecting the
    goroutines it starts. *)
Fixpoint run_thread (fuel : nat) {A : Type} (head p : prog A) (w : world)
    : prog A * world * list gname :=
  match fuel with
  | O => (p, w, [])
  | S fuel' =>
      match tstep false head p w with
      | None => (p, w, [])
      | Some (p', w', gs) =>
          let '(q, w'', gs') := run_thread fuel' head p' w' in
          (q, w'', gs ++ gs')
      end
  end.

(** *** All goroutines together *)

Record state : Type := mkState {
  st_world : world;
  st_main : prog error;                  (* the caller's goroutine *)
  st_pool : list (gname * prog unit)     (* the goroutines started with [go] *)
}.

(** What can happen next: the caller's goroutine runs a step, the [i]-th
    started goroutine runs a step, or the context is cancelled. *)
Inductive label : Type :=
| RunMain (prefer_done : bool)
| RunGo (i : nat)
| Cancel.

Definition start (g : gname) : gname * prog unit := (g, body g).

Fixpoint replace_nth {T : Type} (i : nat) (x : T) (l : list T) : list T :=
  match l, i with
  | [], _ => []
  | _ :: l', O => x :: l'
  | y :: l', S i' => y :: replace_nth i' x l'
  end.

Definition step (l : label) (s : state) : option state :=
  match l with
  | RunMain pd =>
      match tstep pd Continue (st_main s) (st_world s) with
      | Some (p', w', gs) => Some (mkState w' p' (st_pool s ++ map start gs))
      | None => None
      end
  | RunGo i =>
      match nth_error (st_pool s) i with
      | Some (g, p) =>
          match tstep false (body g) p (st_world s) with
          | Some (p', w', gs) =>
              Some (mkState w' (st_main s) (replace_nth i (g, p') (st_pool s) ++ map start gs))
          | None => None
          end
      | None => None
      end
  | Cancel =>
      if done (st_world s) then None
      else Some (mkState (cancel (st_world s)) (st_main s) (st_pool s))
  end.

Fixpoint exec (sched : list label) (s : state) : option state :=
  match sched with
  | [] => Some s
  | l :: sched' =>
      match step l s with
      | Some s' => exec sched' s'
      | None => None
      end
  end.

Definition reachable (s0 s : state) : Prop := exists sched, exec sched s0 = Some s.

(** The world a call starts in: nothing has happened yet; the context may
    already be cancelled. *)
Definition new_world (cancelled : bool) (listen : list (ReadWriteCloser * error)) : world :=
  mkWorld cancelled None listen 0 [] (if cancelled then [SigCancel] else []) [].

(** A call [fwd.ForwardToListener(ctx, listen)]. *)
Definition call_ForwardToListener (fwd : PortForwarder) (ctx : Context) (cancelled : bool)
    (listen : list (ReadWriteCloser * error)) : state :=
  mkState (new_world cancelled listen) (ForwardToListener fwd ctx) [].

(** A call [fwd.Forward(ctx, conn)]. *)
Definition call_Forward (fwd : PortForwarder) (ctx : Context) (cancelled : bool)
    (conn : ReadWriteCloser) : state :=
  mkState (new_world cancelled []) (Forward fwd ctx conn) [].

(** ** What is observed of a run *)

(** The number of times a stream was closed. *)
Fixpoint closes (sd : side) (id : nat) (t : list event) : nat :=
  match t with
  | [] => 0
  | EvClose sd' id' :: t' =>
      match sd, sd' with
      | Local, Local | Remote, Remote =>
          if Nat.eqb id id' then S (closes sd id t') else closes sd id t'
      | _, _ => closes sd id t'
      end
  | _ :: t' => closes sd id t'
  end.

(** Remote channels opened. *)
Fixpoint opens (t : list event) : nat :=
  match t with
  | [] => 0
  | EvOpenChannel _ :: t' => S (opens t')
  | _ :: t' => opens t'
  end.

(** The close error a handler records: the remote channel's unless it is
    [io.EOF], else the local connection's. *)
Definition recorded_close_error (channel conn : ReadWriteCloser) : error :=
  match (if isEOF (rwc_close channel) then nil_error else rwc_close channel) with
  | Some e => Some e
  | None => rwc_close conn
  end.

(** The first non-nil error of a list, nil if there is none. *)
Fixpoint first_non_nil (l : list error) : error :=
  match l with
  | [] => nil_error
  | Some e :: _ => Some e
  | None :: l' => first_non_nil l'
  end.

(** The error [handleConnection] returns when the channel cannot be opened. *)
Definition open_failure (e : goerr) : error :=
  Some (errorString ("error opening streaming channel for new connection: " ++ fmt_v e)).


(** ** Invariants of the error channel *)

(** What a started goroutine may do: it never receives from [errc] nor
    replaces it, and every error it sends is non-nil. *)
Definition action_ok {X : Type} (a : action X) : Prop :=
  match a with
  | TrySend err => err <> None
  | Send err => err <> None
  | Select => False
  | MakeChan => False
  | _ => True
  end.

Fixpoint worker_ok {A : Type} (p : prog A) : Prop :=
  match p with
  | Ret _ => True
  | Continue => True
  | Bind a k => action_ok a /\ forall x, worker_ok (k x)
  end.

(** The buffer and the caller: as long as the caller has received nothing,
    the buffer is empty and nothing was sent, or it holds the first error
    ever sent; a received error is the first error ever sent; nothing is
    received twice. *)
Definition slot_ok (w : world) : Prop :=
  match recvd w with
  | [] =>
      match errc w with
      | None => sent w = []
      | Some e => exists rest, sent w = e :: rest
      end
  | [e] => exists rest, sent w = e :: rest
  | _ => False
  end.

Definition nonnil_ok (w : world) : Prop :=
  (forall e, errc w = Some e -> e <> None)
  /\ (forall e, In e (recvd w) -> e <> None).

(** Where the caller stands once its goroutine is started: in [awaitError]
    before the [select], in its second case before [ctx.Err()], or returned. *)
Inductive main_ok (ctx : Context) (w : world) : prog error -> Prop :=
| main_waiting : recvd w = [] -> main_ok ctx w (awaitError ctx)
| main_cancelled : recvd w = [] -> done w = true -> main_ok ctx w (call (CtxErr ctx))
| main_got : forall e, recvd w = [e] -> main_ok ctx w (Ret e)
| main_done : recvd w = [] -> done w = true -> main_ok ctx w (Ret (cause ctx)).

Definition late_inv (ctx : Context) (s : state) : Prop :=
  slot_ok (st_world s)
  /\ nonnil_ok (st_world s)
  /\ main_ok ctx (st_world s) (st_main s)
  /\ Forall (fun gp => worker_ok (snd gp)) (st_pool s).

(** The part common to both entry points after the port was announced. *)
Definition launch2 (ctx : Context) (g : gname) : prog error :=
  _ <- call (Go g) ;; awaitError ctx.

Definition launch (ctx : Context) (g : gname) : prog error :=
  _ <- call MakeChan ;; launch2 ctx g.

(** Before the goroutine is started nothing else runs. *)
Definition early_inv (ctx : Context) (entry : prog error) (g : channelID -> gname)
    (s : state) : Prop :=
  st_pool s = []
  /\ recvd (st_world s) = []
  /\ (st_main s = entry
      \/ (exists id, st_main s = launch ctx (g id))
      \/ (exists id, st_main s = launch2 ctx (g id)
                     /\ errc (st_world s) = None
                     /\ sent (st_world s) = [])).

Definition phase_inv (ctx : Context) (entry : prog error) (g : channelID -> gname)
    (s : state) : Prop :=
  early_inv ctx entry g s \/ late_inv ctx s.

(** The claim that whichever of cancellation and error occurs first decides
    what [ForwardToListener] returns. *)
Definition first_signal_wins (fwd : PortForwarder) (ctx : Context) (cancelled : bool)
    (listen : list (ReadWriteCloser * error)) : Prop :=
  forall s r,
    reachable (call_ForwardToListener fwd ctx cancelled listen) s ->
    st_main s = Ret r ->
    match fired (st_world s) with
    | SigCancel :: _ => r = cause ctx
    | SigError e :: _ => r = e
    | [] => False
    end.

(** ** The byte relay *)

Definition errInvalidWrite : goerr := errorString "invalid write result".
Definition ErrShortWrite : goerr := errorString "short write".

(** Everything a stream yields to its reader. *)
Definition all_bytes (reads : list (list Byte.byte * error)) : list Byte.byte :=
  concat (map fst reads).

(** What a stream yields up to the first read that reports an error or the
    end of the stream. *)
Fixpoint until_end (reads : list (list Byte.byte * error)) : list Byte.byte :=
  match reads with
  | [] => []
  | (buf, None) :: reads' => buf ++ until_end reads'
  | (buf, Some _) :: _ => buf
  end.

(** Modelled from the spec: the two copies a handler starts are calls of
    [io.Copy], which is Go's standard library and not code of this package,
    on streams whose [Read] and [Write] are not code of this package either.
    The spec says of each copy that it "runs until its source reaches
    end-of-stream or its destination rejects further writes".  The calls a
    copy makes on the two streams: *)
Inductive copy_action : Type -> Type :=
| Read (src : Stream) : copy_action (list Byte.byte * error)
| Write (dst : Stream) (p : list Byte.byte) : copy_action (Z * error).

(** Modelled from the spec: the program of a copy goroutine (see
    [copy_action]): it returns the error of [io.Copy], goes for the next
    turn of the copy loop, or calls [Read] or [Write] and goes on with the
    result.  The byte count [io.Copy] returns is left out: the statement
    [go io.Copy(...)] discards both results. *)
Inductive cprog : Type :=
| CRet (err : error)
| CAgain
| CBind (X : Type) (a : copy_action X) (k : X -> cprog).

Arguments CBind {X} a k.

(** Modelled from the spec: the end of one turn of the copy loop (see
    [copy_action]).  A read that reported an error ends the copy, with no
    error if it was the end of the stream; otherwise the loop goes on. *)
Definition after_read (er : error) : cprog :=
  match er with
  | Some _ => CRet (if isEOF er then nil_error else er)
  | None => CAgain
  end.

(** Modelled from the spec: what the copy loop does with the answer of
    [Write] (see [copy_action]): a write error, an impossible count or a
    short write ends the copy with an error ("its destination rejects
    further writes"); otherwise the turn ends as [after_read] says. *)
Definition after_write (buf : list Byte.byte) (er : error) (res : Z * error) : cprog :=
  let nr := Z.of_nat (length buf) in
  let bad := ((fst res <? 0) || (nr <? fst res))%Z in
  let nw := if bad then 0%Z else fst res in
  let ew :=
    if bad
    then match snd res with None => Some errInvalidWrite | Some _ => snd res end
    else snd res in
  match ew with
  | Some _ => CRet ew
  | None => if negb (nr =? nw)%Z then CRet (Some ErrShortWrite) else after_read er
  end.

(** Modelled from the spec: the copy stands before [dst.Write(buf[0:nr])]
    (see [copy_action]). *)
Definition at_write (dst : Stream) (buf : list Byte.byte) (er : error) : cprog :=
  CBind (Write dst buf) (after_write buf er).

(** Modelled from the spec: what the copy loop does with the answer of
    [Read] (see [copy_action]): a chunk that is not empty is written. *)
Definition on_chunk (dst : Stream) (r : list Byte.byte * error) : cprog :=
  if (0 <? Z.of_nat (length (fst r)))%Z
  then at_write dst (fst r) (snd r)
  else after_read (snd r).

(** Modelled from the spec: one turn of the loop of [io.Copy(dst, src)]
    (see [copy_action]), as [io.copyBuffer] runs it for streams without the
    [WriterTo] and [ReaderFrom] shortcuts: read a chunk, write it, end on
    the first write error, short write or read error. *)
Definition copy_turn (dst src : Stream) : cprog :=
  CBind (Read src) (on_chunk dst).

(** The bytes in transit between the two ends of one forwarded connection,
    by the side of the stream: what the next [Read] calls of a stream
    return, the bytes it has handed to its reader, and the bytes it has
    accepted from its writer. *)
Record pipes : Type := mkPipes {
  inbox : side -> list (list Byte.byte * error);
  taken : side -> list Byte.byte;
  outbox : side -> list Byte.byte
}.

Definition side_eqb (a b : side) : bool :=
  match a, b with
  | Local, Local => true
  | Remote, Remote => true
  | _, _ => false
  end.

Definition upd {T : Type} (f : side -> T) (sd : side) (v : T) : side -> T :=
  fun sd' => if side_eqb sd sd' then v else f sd'.

(** Modelled from the spec: what [Read] and [Write] do to a stream (see
    [copy_action]).  [Read] hands out the next pending chunk and waits when
    there is none; [Write] answers as the stream's [rwc_write] says, and
    the stream then holds as many bytes of the chunk as it reports
    written. *)
Definition cperform {X : Type} (a : copy_action X) (w : pipes) : option (X * pipes) :=
  match a in copy_action T return option (T * pipes) with
  | Read src =>
      match inbox w (stream_side src) with
      | [] => None
      | r :: rest =>
          Some (r, mkPipes (upd (inbox w) (stream_side src) rest)
                           (upd (taken w) (stream_side src)
                                (taken w (stream_side src) ++ fst r))
                           (outbox w))
      end
  | Write dst p =>
      let res := rwc_write (stream_rwc dst) (outbox w (stream_side dst)) p in
      Some (res, mkPipes (inbox w) (taken w)
                         (upd (outbox w) (stream_side dst)
                              (outbox w (stream_side dst) ++ firstn (Z.to_nat (fst res)) p)))
  end.

(** One step of a copy goroutine; [head] is the head of its loop. *)
Definition cstep (head p : cprog) (w : pipes) : option (cprog * pipes) :=
  match p with
  | CRet _ => None
  | CAgain => Some (head, w)
  | CBind a k =>
      match cperform a w with
      | Some (x, w') => Some (k x, w')
      | None => None
      end
  end.

(** The copies of one forwarded connection: the streams' bytes and the copy
    goroutines, each with its destination and its source. *)
Record relay : Type := mkRelay {
  r_pipes : pipes;
  r_pool : list (Stream * Stream * cprog)
}.

(** The [i]-th copy runs a step. *)
Definition relay_step (i : nat) (r : relay) : option relay :=
  match nth_error (r_pool r) i with
  | Some (dst, src, p) =>
      match cstep (copy_turn dst src) p (r_pipes r) with
      | Some (p', w') => Some (mkRelay w' (replace_nth i (dst, src, p') (r_pool r)))
      | None => None
      end
  | None => None
  end.

Fixpoint relay_exec (sched : list nat) (r : relay) : option relay :=
  match sched with
  | [] => Some r
  | i :: sched' =>
      match relay_step i r with
      | Some r' => relay_exec sched' r'
      | None => None
      end
  end.

(** The copies started by the [go io.Copy(dst, src)] statements of a trace,
    oldest first. *)
Fixpoint copies_started (t : list event) : list (Stream * Stream) :=
  match t with
  | [] => []
  | EvGoCopy dst src :: t' => copies_started t' ++ [(dst, src)]
  | _ :: t' => copies_started t'
  end.

(** What happened between two worlds. *)
Definition events_since (w w' : world) : list event :=
  firstn (length (trace w') - length (trace w)) (trace w').

(** The goroutine [go io.Copy(dst, src)] starts. *)
Definition go_copy (ds : Stream * Stream) : Stream * Stream * cprog :=
  (fst ds, snd ds, copy_turn (fst ds) (snd ds)).

(** Nothing has been read or written yet. *)
Definition new_pipes (conn channel : ReadWriteCloser) : pipes :=
  mkPipes (fun sd => match sd with Local => rwc_reads conn | Remote => rwc_reads channel end)
          (fun _ => [])
          (fun _ => []).

(** The relay of the connection [conn] and its channel, made of the copies
    the events [evs] started. *)
Definition relay_of (conn channel : ReadWriteCloser) (evs : list event) : relay :=
  mkRelay (new_pipes conn channel) (map go_copy (copies_started evs)).

(** What a handler has done by the time both of its [go io.Copy]
    statements are behind it: its first three steps from the world [w],
    the open and the two [go] statements. *)
Definition handler_events (fwd : PortForwarder) (ctx : Context) (id : channelID)
    (conn : ReadWriteCloser) (w : world) : list event :=
  events_since w
    (snd (fst (run_thread 3 Continue (handleConnection fwd ctx id conn) w))).

(** One direction of the relay in step: the source's script is what was
    taken from it and what is still pending; at the head of the loop the
    destination holds all that was taken; before a write it lacks the chunk
    in hand; after the end it holds a prefix of what was taken, and all the
    source yielded up to its end when the copy ended without error. *)
Definition dir_ok (dst src : Stream) (w : pipes) (p : cprog) : Prop :=
  all_bytes (rwc_reads (stream_rwc src))
  = taken w (stream_side src) ++ all_bytes (inbox w (stream_side src))
  /\ (((p = copy_turn dst src \/ p = CAgain)
       /\ outbox w (stream_side dst) = taken w (stream_side src)
       /\ until_end (rwc_reads (stream_rwc src))
          = taken w (stream_side src) ++ until_end (inbox w (stream_side src)))
      \/ (exists buf er,
            p = at_write dst buf er
            /\ outbox w (stream_side dst) ++ buf = taken w (stream_side src)
            /\ until_end (rwc_reads (stream_rwc src))
               = taken w (stream_side src)
                 ++ match er with
                    | None => until_end (inbox w (stream_side src))
                    | Some _ => []
                    end)
      \/ (exists e,
            p = CRet e
            /\ (exists rest, taken w (stream_side src) = outbox w (stream_side dst) ++ rest)
            /\ (e = nil_error ->
                outbox w (stream_side dst) = until_end (rwc_reads (stream_rwc src))))).

Definition relay_inv (conn channel : ReadWriteCloser) (r : relay) : Prop :=
  exists p1 p2,
    r_pool r = [(LocalConn conn, RemoteChannel channel, p1);
                (RemoteChannel channel, LocalConn conn, p2)]
    /\ dir_ok (LocalConn conn) (RemoteChannel channel) (r_pipes r) p1
    /\ dir_ok (RemoteChannel channel) (LocalConn conn) (r_pipes r) p2.

(** ** Test fixtures *)

(** A [Write] that accepts everything. *)
Definition write_all (_ p : list Byte.byte) : Z * error :=
  (Z.of_nat (length p), nil_error).

(** A [Write] that fails once the stream has accepted four bytes. *)
Definition write_four (got p : list Byte.byte) : Z * error :=
  if Nat.leb 4 (length got) then (0%Z, Some (errorString "broken pipe"))
  else (Z.of_nat (length p), nil_error).

Definition hello : list Byte.byte := [Byte.x68; Byte.x65; Byte.x6c; Byte.x6c; Byte.x6f].
Definition world_bytes : list Byte.byte := [Byte.x77; Byte.x6f; Byte.x72; Byte.x6c; Byte.x64].

(** A local connection whose client says "hello", "world" and closes. *)
Definition web_conn : ReadWriteCloser :=
  mkRWC 1 [(hello, nil_error); (world_bytes, nil_error); ([], Some io_EOF)] write_all nil_error.

(** A remote channel whose [Close] reports the spurious [io.EOF]. *)
Definition web_channel : ReadWriteCloser :=
  mkRWC 2 [(world_bytes, nil_error); (hello, Some io_EOF)] write_all (Some io_EOF).

(** A remote channel that breaks after four bytes and fails to close. *)
Definition broken_channel : ReadWriteCloser :=
  mkRWC 3 [(hello, nil_error)] write_four (Some (errorString "channel already closed")).

Definition web_session : Session :=
  mkSession (fun _ _ => (7, nil_error)) (fun _ _ => (web_channel, nil_error)).

Definition broken_session : Session :=
  mkSession (fun _ _ => (7, nil_error)) (fun _ _ => (broken_channel, nil_error)).

(** A session that cannot share the port. *)
Definition refusing_session : Session :=
  mkSession (fun _ _ => (0, Some (errorString "connection refused")))
            (fun _ _ => (web_channel, nil_error)).

(** A session that shares the port and cannot open channels. *)
Definition closed_session : Session :=
  mkSession (fun _ _ => (7, nil_error))
            (fun _ _ => (web_channel, Some (errorString "session closed"))).

Definition web_fwd : PortForwarder := NewPortForwarder web_session "web" 8080.
Definition broken_fwd : PortForwarder := NewPortForwarder broken_session "web" 8080.
Definition refused_fwd : PortForwarder := NewPortForwarder refusing_session "web" 8080.
Definition closed_fwd : PortForwarder := NewPortForwarder closed_session "web" 8080.

(** A context of the standard library, and one whose [Err] stays nil. *)
Definition std_ctx : Context := mkContext (Some context_Canceled).
Definition silent_ctx : Context := mkContext nil_error.

Definition listener_closed : goerr := errorString "use of closed network connection".

(** A listener that yields one connection and is then closed. *)
Definition one_conn_listener : list (ReadWriteCloser * error) :=
  [(web_conn, nil_error); (web_conn, Some listener_closed)].

(** A listener that is already closed. *)
Definition closed_listener : list (ReadWriteCloser * error) :=
  [(web_conn, Some listener_closed)].

(** The state a schedule leads to (the state it started from if some step
    of it cannot be taken). *)
Definition run_schedule (sched : list label) (s0 : state) : state :=
  match exec sched s0 with
  | Some s => s
  | None => s0
  end.

(** The world before anything has happened, context not cancelled. *)
Definition fresh : world := new_world false [].

(** The caller announces, makes the channel and starts the accept loop; the
    accept loop fails and sends its error; the caller's [select] takes it. *)
Definition accept_fails : list label :=
  [RunMain false; RunMain false; RunMain false; RunGo 0; RunGo 0; RunMain false].

Definition listener_call (cancelled : bool) : state :=
  call_ForwardToListener web_fwd std_ctx cancelled closed_listener.

(** [Forward] on a session that refuses to share the port: the caller's
    three steps, then the handler's first. *)
Definition stream_call : state := call_Forward refused_fwd std_ctx false web_conn.

Definition handler_opens : list label :=
  [RunMain false; RunMain false; RunMain false; RunGo 0].

Definition handler_opens_then_cancel : list label :=
  handler_opens ++ [Cancel; RunMain true; RunMain true].

(** The error the announcer is meant to return for [refused_fwd]. *)
Definition announcement_failure : error :=
  Some (errorString "failed to share remote port 8080: connection refused").

(** Worlds in which a handler for [web_conn] has returned. *)
Definition web_exit_world : world :=
  mkWorld true None [] 1
    [EvClose Local 1; EvClose Remote 2;
     EvGoCopy (RemoteChannel web_channel) (LocalConn web_conn);
     EvGoCopy (LocalConn web_conn) (RemoteChannel web_channel);
     EvOpenChannel 7]
    [SigCancel] [].

Definition closed_exit_world : world :=
  mkWorld false None [] 1 [EvClose Local 1; EvOpenChannel 7] [] [].

(** ** Further observations and invariants *)

(** Calls of [startSharing]. *)
Fixpoint shares (t : list event) : nat :=
  match t with
  | [] => 0
  | EvStartSharing _ _ :: t' => S (shares t')
  | _ :: t' => shares t'
  end.

(** Copies started with [go io.Copy]. *)
Fixpoint copies (t : list event) : nat :=
  match t with
  | [] => 0
  | EvGoCopy _ _ :: t' => S (copies t')
  | _ :: t' => copies t'
  end.

(** Handler goroutines started by the accept loop. *)
Fixpoint handlers_started (t : list event) : nat :=
  match t with
  | [] => 0
  | EvGo (ListenerHandler _ _ _ _) :: t' => S (handlers_started t')
  | _ :: t' => handlers_started t'
  end.

Definition announces {X : Type} (a : action X) : bool :=
  match a with
  | StartSharing _ _ _ => true
  | _ => false
  end.

(** A program that never calls [startSharing]. *)
Fixpoint never_announces {A : Type} (p : prog A) : Prop :=
  match p with
  | Ret _ => True
  | Continue => True
  | Bind a k => announces a = false /\ forall x, never_announces (k x)
  end.

(** The port is announced by the caller's first step and by nothing else. *)
Definition share_inv (entry : prog error) (s : state) : Prop :=
  Forall (fun gp => never_announces (snd gp)) (st_pool s)
  /\ ((st_main s = entry /\ st_pool s = [] /\ shares (trace (st_world s)) = 0)
      \/ (never_announces (st_main s) /\ shares (trace (st_world s)) = 1)).

(** What an action of a stream handler uses up. *)
Inductive act_kind : Type :=
| KSend
| KCloseLocal (id : nat)
| KOpen
| KPlain
| KForbidden.

Definition kind_of {X : Type} (a : action X) : act_kind :=
  match a with
  | Send _ => KSend
  | TrySend _ => KSend
  | Close (LocalConn c) => KCloseLocal (rwc_id c)
  | Close (RemoteChannel _) => KPlain
  | OpenStreamingChannel _ _ => KOpen
  | GoCopy _ _ => KPlain
  | WaitDone => KPlain
  | CtxErr _ => KPlain
  | StartSharing _ _ _ => KForbidden
  | Accept => KForbidden
  | Go _ => KForbidden
  | MakeChan => KForbidden
  | Select => KForbidden
  end.

(** [within c sends closes chans p]: on every path [p] sends at most [sends]
    errors, closes the local connection [c] at most [closes] times, opens at
    most [chans] remote channels, starts no goroutine and never loops. *)
Fixpoint within {A : Type} (c : nat) (sends closes chans : nat) (p : prog A) : Prop :=
  match p with
  | Ret _ => True
  | Continue => False
  | Bind a k =>
      match kind_of a with
      | KSend => 0 < sends /\ forall x, within c (pred sends) closes chans (k x)
      | KCloseLocal id =>
          if Nat.eqb id c
          then 0 < closes /\ forall x, within c sends (pred closes) chans (k x)
          else forall x, within c sends closes chans (k x)
      | KOpen => 0 < chans /\ forall x, within c sends closes (pred chans) (k x)
      | KPlain => forall x, within c sends closes chans (k x)
      | KForbidden => False
      end
  end.

(** A call of [Forward] for the stream [c]: nothing has been sent, closed or
    opened before the handler goroutine is started; afterwards that goroutine
    is the only one, and what it has done and what it may still do add up to
    at most one send, one close of [c] and one remote channel. *)
Definition stream_inv (c : nat) (s : state) : Prop :=
  (st_pool s = []
   /\ sent (st_world s) = []
   /\ closes Local c (trace (st_world s)) = 0
   /\ opens (trace (st_world s)) = 0)
  \/ (exists g p sends cl chans,
        st_pool s = [(g, p)]
        /\ within c sends cl chans p
        /\ length (sent (st_world s)) + sends <= 1
        /\ closes Local c (trace (st_world s)) + cl <= 1
        /\ opens (trace (st_world s)) + chans <= 1).

(** The caller of [Forward] announces, makes the channel, starts the
    handler; the context is cancelled before the handler runs and the caller
    returns. *)
Definition cancelled_before_handler : list label :=
  [RunMain false; RunMain false; RunMain false; Cancel; RunMain true; RunMain true].

(** A listener that yields two connections and then has none pending. *)
Definition two_conn_listener : list (ReadWriteCloser * error) :=
  [(web_conn, nil_error); (web_conn, nil_error)].

(** [Forward] on the web fixtures. *)
Definition web_stream_call : state := call_Forward web_fwd std_ctx false web_conn.

(** The caller's three steps; the handler opens its channel and starts the
    copies; the context is cancelled; the handler wakes up, reads the
    context's error and closes both streams: it stands before its send. *)
Definition handler_before_send : list label :=
  [RunMain false; RunMain false; RunMain false;
   RunGo 0; RunGo 0; RunGo 0; Cancel; RunGo 0; RunGo 0; RunGo 0; RunGo 0].

(** ... then the handler sends and the caller's [select] takes the error. *)
Definition handler_sends_caller_receives : list label :=
  handler_before_send ++ [RunGo 0; RunMain false].

(** *** Accounting for a call of [ForwardToListener] *)

(** Local connections closed, whichever they are. *)
Fixpoint local_closes (t : list event) : nat :=
  match t with
  | [] => 0
  | EvClose Local _ :: t' => S (local_closes t')
  | _ :: t' => local_closes t'
  end.

(** What an action of the accept loop or of one of its handlers uses up. *)
Inductive lkind : Type :=
| LAccept
| LGoHandler
| LOpen
| LCloseLocal
| LSend
| LPlain
| LForbidden.

Definition lkind_of {X : Type} (a : action X) : lkind :=
  match a with
  | Accept => LAccept
  | Go (ListenerHandler _ _ _ _) => LGoHandler
  | Go _ => LForbidden
  | OpenStreamingChannel _ _ => LOpen
  | Close (LocalConn _) => LCloseLocal
  | Close (RemoteChannel _) => LPlain
  | TrySend _ => LSend
  | Send _ => LSend
  | GoCopy _ _ => LPlain
  | WaitDone => LPlain
  | CtxErr _ => LPlain
  | StartSharing _ _ _ => LForbidden
  | MakeChan => LForbidden
  | Select => LForbidden
  end.

(** What a goroutine may still do: start handlers, open channels, close
    local connections, send errors. *)
Record budget : Type := mkBudget {
  b_start : nat;
  b_open : nat;
  b_close : nat;
  b_send : nat
}.

(** [affords loops b p]: every path of [p] stays within [b], where each
    [Accept] that returns pays for one handler; only a goroutine that
    [loops] jumps back to its head, and then with nothing left to open or
    close. *)
Fixpoint affords {A : Type} (loops : bool) (b : budget) (p : prog A) : Prop :=
  match p with
  | Ret _ => True
  | Continue => loops = true /\ b_open b = 0 /\ b_close b = 0 /\ 0 < b_send b
  | Bind a k =>
      match lkind_of a with
      | LAccept =>
          forall x, affords loops (mkBudget (S (b_start b)) (b_open b) (b_close b) (b_send b)) (k x)
      | LGoHandler =>
          0 < b_start b
          /\ forall x,
               affords loops (mkBudget (pred (b_start b)) (b_open b) (b_close b) (b_send b)) (k x)
      | LOpen =>
          0 < b_open b
          /\ forall x,
               affords loops (mkBudget (b_start b) (pred (b_open b)) (b_close b) (b_send b)) (k x)
      | LCloseLocal =>
          0 < b_close b
          /\ forall x,
               affords loops (mkBudget (b_start b) (b_open b) (pred (b_close b)) (b_send b)) (k x)
      | LSend =>
          0 < b_send b
          /\ forall x,
               affords loops (mkBudget (b_start b) (b_open b) (b_close b) (pred (b_send b))) (k x)
      | LPlain => forall x, affords loops b (k x)
      | LForbidden => False
      end
  end.

Definition is_loop (g : gname) : bool :=
  match g with
  | AcceptLoop _ _ _ => true
  | _ => false
  end.

Definition entry_ok (b : budget) (gp : gname * prog unit) : Prop :=
  affords (is_loop (fst gp)) b (snd gp).

Fixpoint total (f : budget -> nat) (bs : list budget) : nat :=
  match bs with
  | [] => 0
  | b :: bs' => f b + total f bs'
  end.

(** The budget a goroutine starts with. *)
Definition initial_budget (g : gname) : budget :=
  match g with
  | AcceptLoop _ _ _ => mkBudget 0 0 0 1
  | _ => mkBudget 0 1 1 1
  end.

(** The books of a call on a listener with [n] results to give: handlers are
    paid for by results of [Accept], channels and closes of local
    connections by handlers, and every goroutine sends at most once. *)
Definition listener_inv (n : nat) (s : state) : Prop :=
  exists bs,
    Forall2 entry_ok bs (st_pool s)
    /\ handlers_started (trace (st_world s)) + total b_start bs
       + length (listener (st_world s)) <= n
    /\ opens (trace (st_world s)) + total b_open bs
       <= handlers_started (trace (st_world s))
    /\ local_closes (trace (st_world s)) + total b_close bs
       <= handlers_started (trace (st_world s))
    /\ length (sent (st_world s)) + total b_send bs <= length (st_pool s)
    /\ length (st_pool s) <= S (handlers_started (trace (st_world s))).

(** [ForwardToListener] on a listener that yields one connection and is
    then closed: the accept loop starts a handler and loops, the handler
    opens its channel and starts the copies, the next [Accept] fails and
    the accept loop sends the error. *)
Definition one_conn_call : state :=
  call_ForwardToListener web_fwd std_ctx false one_conn_listener.

Definition one_conn_served : list label :=
  [RunMain false; RunMain false; RunMain false;
   RunGo 0; RunGo 0; RunGo 0;
   RunGo 1; RunGo 1; RunGo 1;
   RunGo 0; RunGo 0].
(** ** Delivery attempts of the started goroutines *)

(** The two ways of sending on [errc]: [errc <- err], which waits for room
    in the buffer, and the [select] with [default] of [sendError]. *)
Definition blocking_send {X : Type} (a : action X) : bool :=
  match a with
  | Send _ => true
  | _ => false
  end.

Definition on_errc {X : Type} (a : action X) : bool :=
  match a with
  | Send _ => true
  | TrySend _ => true
  | _ => false
  end.

(** The goroutines of a call of [ForwardToListener]. *)
Definition listener_goroutine (g : gname) : bool :=
  match g with
  | AcceptLoop _ _ _ => true
  | ListenerHandler _ _ _ _ => true
  | StreamHandler _ _ _ _ => false
  end.

Definition starts_listener_goroutines {X : Type} (a : action X) : bool :=
  match a with
  | Go g => listener_goroutine g
  | _ => true
  end.

(** A program that never waits for room in [errc] and starts goroutines of
    [ForwardToListener] only. *)
Fixpoint try_sends_only {A : Type} (p : prog A) : Prop :=
  match p with
  | Ret _ => True
  | Continue => True
  | Bind a k =>
      blocking_send a = false
      /\ starts_listener_goroutines a = true
      /\ forall x, try_sends_only (k x)
  end.

Definition try_inv (s : state) : Prop :=
  try_sends_only (st_main s)
  /\ Forall (fun gp => listener_goroutine (fst gp) = true /\ try_sends_only (snd gp))
            (st_pool s).

(** [ForwardToListener] on a session that cannot open channels and a
    listener that yields one connection and is then closed: the handler
    fails to open its channel and sends that error; then [Accept] fails and
    the accept loop stands before its own [sendError], the buffer full. *)
Definition crowded_call : state :=
  call_ForwardToListener closed_fwd std_ctx false one_conn_listener.

Definition second_attempt_pending : list label :=
  [RunMain false; RunMain false; RunMain false;
   RunGo 0; RunGo 0; RunGo 0;
   RunGo 1; RunGo 1; RunGo 1;
   RunGo 0].

(** The relay a schedule leads to (the relay it started from if some step
    of it cannot be taken). *)
Definition run_relay (sched : list nat) (r0 : relay) : relay :=
  match relay_exec sched r0 with
  | Some r => r
  | None => r0
  end.

(** The relay of the web fixtures, as their handler starts it. *)
Definition web_relay : relay :=
  relay_of web_conn web_channel (handler_events web_fwd std_ctx 7 web_conn fresh).

(** The copy into the channel reads "hello", writes it, reads "world",
    writes it, and reads the end of the stream; in between the copy into
    the connection moves "world". *)
Definition hello_world_relayed : list nat :=
  [1; 1; 1; 0; 0; 1; 1; 1; 1].

(** ** How one goroutine runs *)

Lemma runs_inv (A : Type) (p : prog A) (w : world) (c : prog A * world) :
  runs (p, w) c ->
  c = (p, w)
  \/ (exists p' w' gs, tstep false Continue p w = Some (p', w', gs) /\ runs (p', w') c)
  \/ (done w = false /\ runs (p, cancel w) c).
Proof.
  intros H. inversion H; subst.
  - left. reflexivity.
  - right. left. eauto.
  - right. right. split; assumption.
Qed.

Lemma runs_Ret_inv (A : Type) (a r : A) (w w' : world) :
  runs (Ret a, w) (Ret r, w') ->
  a = r /\ trace w' = trace w /\ opened w' = opened w /\ (done w = true -> w' = w).
Proof.
  intros H.
  apply runs_inv in H. destruct H as [H | [(p1 & w1 & gs & Hs & _) | [Hd H]]].
  - inversion H; subst. repeat split; reflexivity.
  - discriminate Hs.
  - apply runs_inv in H. destruct H as [H | [(p1 & w1 & gs & Hs & _) | [Hd' _]]].
    + inversion H; subst. repeat split; try reflexivity. intros Ht. congruence.
    + discriminate Hs.
    + discriminate Hd'.
Qed.

(** A goroutine standing before an action performs it, on the world as it
    is or as it is after the context was cancelled in the meantime. *)
Lemma runs_Bind_inv (A X : Type) (a : action X) (k : X -> prog A) (w w' : world) (r : A) :
  runs (Bind a k, w) (Ret r, w') ->
  exists w1 x w2,
    (w1 = w \/ (done w = false /\ w1 = cancel w))
    /\ perform false a w1 = Some (x, w2)
    /\ runs (k x, w2) (Ret r, w').
Proof.
  intros H.
  apply runs_inv in H. destruct H as [H | [(p1 & w1 & gs & Hs & H) | [Hd H]]].
  - discriminate H.
  - cbn in Hs. destruct (perform false a w) as [[x w2]|] eqn:Hp; [|discriminate].
    inversion Hs; subst. exists w, x, w1. auto.
  - apply runs_inv in H. destruct H as [H | [(p1 & w1 & gs & Hs & H) | [Hd' _]]].
    + discriminate H.
    + cbn in Hs. destruct (perform false a (cancel w)) as [[x w2]|] eqn:Hp; [|discriminate].
      inversion Hs; subst. exists (cancel w), x, w1. auto.
    + discriminate Hd'.
Qed.

(** What one goroutine cannot change by waiting: the trace and the number of
    opened channels are the same before and after a cancellation. *)
Lemma maybe_cancelled_same (w w1 : world) :
  w1 = w \/ (done w = false /\ w1 = cancel w) ->
  trace w1 = trace w /\ opened w1 = opened w /\ (done w = true -> done w1 = true).
Proof.
  intros [-> | [Hd ->]]; cbn; auto.
Qed.

(** Every run of [handleConnection] that returns, whenever the context is
    cancelled along the way. *)
Lemma handleConnection_runs (fwd : PortForwarder) (ctx : Context) (id : channelID)
    (conn : ReadWriteCloser) (w w' : world) (r : error) :
  runs (handleConnection fwd ctx id conn, w) (Ret r, w') ->
  match openStreamingChannel (session fwd) (opened w) id with
  | (_, Some e) =>
      r = open_failure e
      /\ trace w' = EvClose Local (rwc_id conn) :: EvOpenChannel id :: trace w
  | (channel, None) =>
      done w' = true
      /\ r = match cause ctx with
             | Some e => Some e
             | None => recorded_close_error channel conn
             end
      /\ trace w' =
           EvClose Local (rwc_id conn) :: EvClose Remote (rwc_id channel)
           :: EvGoCopy (RemoteChannel channel) (LocalConn conn)
           :: EvGoCopy (LocalConn conn) (RemoteChannel channel)
           :: EvOpenChannel id :: trace w
  end.
Proof.
  intros H. unfold handleConnection, defer in H. cbn in H.
  apply runs_Bind_inv in H. destruct H as (w1 & x & w2 & Hw1 & Hp & H).
  apply maybe_cancelled_same in Hw1. destruct Hw1 as (Ht1 & Ho1 & _).
  cbn in Hp. inversion Hp; subst x w2; clear Hp. rewrite Ho1 in H.
  destruct (openStreamingChannel (session fwd) (opened w) id) as [channel [e|]]; cbn in H.
  - apply runs_Bind_inv in H. destruct H as (w3 & x & w4 & Hw3 & Hp & H).
    apply maybe_cancelled_same in Hw3. destruct Hw3 as (Ht3 & _ & _).
    cbn in Hp. inversion Hp; subst x w4; clear Hp. cbn in H.
    apply runs_Ret_inv in H. destruct H as (Hr & Ht & _).
    split; [symmetry; exact Hr|].
    rewrite Ht. cbn. rewrite Ht3. cbn. rewrite Ht1. reflexivity.
  - apply runs_Bind_inv in H. destruct H as (w3 & x & w4 & Hw3 & Hp & H).
    apply maybe_cancelled_same in Hw3. destruct Hw3 as (Ht3 & _ & _).
    cbn in Hp. inversion Hp; subst x w4; clear Hp. cbn in H.
    apply runs_Bind_inv in H. destruct H as (w5 & x & w6 & Hw5 & Hp & H).
    apply maybe_cancelled_same in Hw5. destruct Hw5 as (Ht5 & _ & _).
    cbn in Hp. inversion Hp; subst x w6; clear Hp. cbn in H.
    apply runs_Bind_inv in H. destruct H as (w7 & x & w8 & Hw7 & Hp & H).
    apply maybe_cancelled_same in Hw7. destruct Hw7 as (Ht7 & _ & _).
    cbn in Hp. destruct (done w7) eqn:Hd7; [|discriminate].
    inversion Hp; subst x w8; clear Hp. cbn in H.
    apply runs_Bind_inv in H. destruct H as (w9 & x & w10 & Hw9 & Hp & H).
    apply maybe_cancelled_same in Hw9. destruct Hw9 as (Ht9 & _ & Hd9).
    specialize (Hd9 Hd7).
    cbn in Hp. unfold ctx_Err in Hp. rewrite Hd9 in Hp.
    inversion Hp; subst x w10; clear Hp. cbn in H.
    apply runs_Bind_inv in H. destruct H as (w11 & x & w12 & Hw11 & Hp & H).
    apply maybe_cancelled_same in Hw11. destruct Hw11 as (Ht11 & _ & Hd11).
    specialize (Hd11 Hd9).
    cbn in Hp. inversion Hp; subst x w12; clear Hp. cbn in H.
    apply runs_Bind_inv in H. destruct H as (w13 & x & w14 & Hw13 & Hp & H).
    apply maybe_cancelled_same in Hw13. destruct Hw13 as (Ht13 & _ & Hd13).
    cbn in Hd13. specialize (Hd13 Hd11).
    cbn in Hp. inversion Hp; subst x w14; clear Hp. cbn in H.
    apply runs_Ret_inv in H. destruct H as (Hr & Ht & _ & Hw).
    cbn in Hw. specialize (Hw Hd13). subst w'.
    split; [cbn; exact Hd13|]. split.
    + rewrite <- Hr. unfold recorded_close_error.
      destruct (cause ctx) as [e|]; [reflexivity|].
      destruct (rwc_close channel) as [[| | |s]|]; reflexivity.
    + cbn. rewrite Ht13. cbn. rewrite Ht11, Ht9, Ht7. cbn. rewrite Ht5. cbn.
      rewrite Ht3. cbn. rewrite Ht1. reflexivity.
Qed.

(** ** The error channel under every interleaving *)

Lemma errors_of_app (l1 l2 : list signal) :
  errors_of (l1 ++ l2) = errors_of l1 ++ errors_of l2.
Proof.
  induction l1 as [|[|e] l1 IH]; cbn; [reflexivity|exact IH|].
  rewrite IH. reflexivity.
Qed.

Lemma sent_offer (err : error) (w : world) : sent (offer err w) = sent w ++ [err].
Proof. unfold sent. cbn. apply errors_of_app. Qed.

Lemma sent_cancel (w : world) : sent (cancel w) = sent w.
Proof. unfold sent. cbn. rewrite errors_of_app. cbn. apply app_nil_r. Qed.

Lemma sent_make_chan (w : world) : sent (make_chan w) = [].
Proof.
  unfold sent. cbn. induction (fired w) as [|[|e] l IH]; cbn; auto.
Qed.

Lemma worker_ok_bind (A B : Type) (p : prog A) (f : A -> prog B) :
  worker_ok p -> (forall a, worker_ok (f a)) -> worker_ok (bind p f).
Proof.
  induction p as [a| |X a k IH]; cbn; intros Hp Hf.
  - apply Hf.
  - exact I.
  - destruct Hp as [Ha Hk]. split; [exact Ha|].
    intros x. apply IH; [apply Hk|exact Hf].
Qed.

Lemma worker_ok_handleConnection (fwd : PortForwarder) (ctx : Context) (id : channelID)
    (conn : ReadWriteCloser) :
  worker_ok (handleConnection fwd ctx id conn).
Proof.
  unfold handleConnection, defer, safeClose, closeChannel. cbn.
  split; [exact I|]. intros [channel [e|]]; cbn; repeat (split; [exact I|intros]); exact I.
Qed.

Lemma worker_ok_body (g : gname) : worker_ok (body g).
Proof.
  destruct g as [fwd ctx id|fwd ctx id conn|fwd ctx id conn]; unfold body.
  - unfold acceptLoop. cbn. split; [exact I|].
    intros [conn [e|]]; cbn; (split; [|intros; exact I]); [discriminate|exact I].
  - apply worker_ok_bind; [apply worker_ok_handleConnection|].
    intros [e|]; cbn; [|exact I]. split; [discriminate|intros; exact I].
  - apply worker_ok_bind; [apply worker_ok_handleConnection|].
    intros [e|]; cbn; [|exact I]. split; [discriminate|intros; exact I].
Qed.

Lemma slot_ok_offer (err : error) (w : world) : slot_ok w -> slot_ok (offer err w).
Proof.
  unfold slot_ok. rewrite sent_offer. cbn.
  destruct (recvd w) as [|e0 [|e1 l]]; [|intros [rest ->]; exists (rest ++ [err]); reflexivity|auto].
  destruct (errc w) as [e|].
  - intros [rest ->]. exists (rest ++ [err]). reflexivity.
  - intros ->. exists []. reflexivity.
Qed.

Lemma nonnil_ok_offer (err : error) (w : world) :
  err <> None -> nonnil_ok w -> nonnil_ok (offer err w).
Proof.
  intros He [Hc Hr]. split; cbn; [|exact Hr].
  intros e. destruct (errc w) as [e0|] eqn:E.
  - intros H. apply Hc. exact H.
  - intros H. inversion H; subst. exact He.
Qed.

(** A step of a started goroutine keeps the buffer invariant and leaves what
    the caller received as it is. *)
Lemma perform_worker (X : Type) (a : action X) (w w' : world) (x : X) :
  action_ok a ->
  perform false a w = Some (x, w') ->
  slot_ok w -> nonnil_ok w ->
  slot_ok w' /\ nonnil_ok w' /\ recvd w' = recvd w /\ (done w = true -> done w' = true).
Proof.
  intros Ha Hp Hs Hn.
  destruct a; cbn in Ha, Hp; try contradiction;
    try (inversion Hp; subst; clear Hp; repeat split; solve [assumption | apply Hn | auto]).
  - destruct (listener w); [discriminate|].
    inversion Hp; subst. repeat split; solve [assumption | apply Hn | auto].
  - destruct (done w) eqn:Hd; [|discriminate].
    inversion Hp; subst. repeat split; solve [assumption | apply Hn | auto].
  - inversion Hp; subst. split; [apply slot_ok_offer; exact Hs|].
    split; [apply nonnil_ok_offer; assumption|]. split; auto.
  - destruct (errc w) eqn:E; [discriminate|].
    inversion Hp; subst. split; [apply slot_ok_offer; exact Hs|].
    split; [apply nonnil_ok_offer; assumption|]. split; auto.
Qed.

Lemma main_ok_mono (ctx : Context) (w w' : world) (p : prog error) :
  main_ok ctx w p ->
  recvd w' = recvd w ->
  (done w = true -> done w' = true) ->
  main_ok ctx w' p.
Proof.
  intros H Hr Hd. destruct H.
  - apply main_waiting. congruence.
  - apply main_cancelled; [congruence|auto].
  - apply main_got. congruence.
  - apply main_done; [congruence|auto].
Qed.

Lemma Forall_replace_nth (T : Type) (P : T -> Prop) (i : nat) (x : T) (l : list T) :
  P x -> Forall P l -> Forall P (replace_nth i x l).
Proof.
  intros Hx Hl. revert i. induction Hl as [|y l Hy Hl IH]; intros i.
  - destruct i; constructor.
  - destruct i; cbn; constructor; auto.
Qed.

Lemma Forall_started (gs : list gname) :
  Forall (fun gp : gname * prog unit => worker_ok (snd gp)) (map start gs).
Proof.
  induction gs; cbn; constructor; auto. apply worker_ok_body.
Qed.

Ltac open_inv :=
  unfold late_inv; cbn [st_world st_main st_pool map]; try rewrite app_nil_r.

(** [late_inv] is kept by every step. *)
Lemma late_inv_step (ctx : Context) (l : label) (s s' : state) :
  late_inv ctx s -> step l s = Some s' -> late_inv ctx s'.
Proof.
  intros (Hs & Hn & Hm & Hp) Hstep.
  destruct s as [w m pool]. cbn in *.
  destruct l as [pd|i|]; cbn in Hstep.
  - (* the caller *)
    destruct Hm as [Hr|Hr Hd|e Hr|Hr Hd]; cbn in Hstep; try discriminate.
    + (* at the select *)
      unfold slot_ok in Hs. rewrite Hr in Hs.
      destruct (errc w) as [e|] eqn:E.
      * destruct (pd && done w) eqn:Epd.
        -- inversion Hstep; subst; clear Hstep. open_inv.
           apply andb_true_iff in Epd. destruct Epd as [_ Hd].
           repeat split; try assumption; try apply Hn.
           ++ unfold slot_ok. rewrite Hr, E. exact Hs.
           ++ apply main_cancelled; assumption.
        -- inversion Hstep; subst; clear Hstep. open_inv.
           repeat split; try assumption.
           ++ unfold slot_ok. cbn. rewrite Hr. cbn. exact Hs.
           ++ cbn. discriminate.
           ++ cbn. rewrite Hr. cbn. intros e0 [<-|[]]. destruct Hn as [Hc _]. apply Hc. exact E.
           ++ apply main_got. cbn. rewrite Hr. reflexivity.
      * destruct (done w) eqn:Hd; [|discriminate].
        inversion Hstep; subst; clear Hstep. open_inv.
        repeat split; try assumption; try apply Hn.
        -- unfold slot_ok. rewrite Hr, E. exact Hs.
        -- apply main_cancelled; assumption.
    + (* at ctx.Err() *)
      inversion Hstep; subst; clear Hstep. open_inv.
      repeat split; try assumption; try apply Hn.
      unfold ctx_Err. rewrite Hd. apply main_done; assumption.
  - (* a started goroutine *)
    destruct (nth_error pool i) as [[g p]|] eqn:En; [|discriminate].
    assert (Hwp : worker_ok p).
    { apply nth_error_In in En. rewrite Forall_forall in Hp. apply (Hp (g, p)). exact En. }
    destruct p as [a| |X a k]; cbn in Hstep; [discriminate| |].
    + inversion Hstep; subst; clear Hstep. open_inv.
      repeat split; try assumption; try apply Hn.
      apply Forall_replace_nth; [apply worker_ok_body|exact Hp].
    + destruct (perform false a w) as [[x w1]|] eqn:Ep; [|discriminate].
      inversion Hstep; subst; clear Hstep. open_inv.
      destruct Hwp as [Ha Hk].
      destruct (perform_worker a Ha Ep Hs Hn) as (Hs' & Hn' & Hr' & Hd').
      split; [exact Hs'|]. split; [exact Hn'|].
      split; [eapply main_ok_mono; eassumption|].
      apply Forall_app. split; [|apply Forall_started].
      apply Forall_replace_nth; [apply Hk|exact Hp].
  - (* cancellation *)
    destruct (done w) eqn:Hd; [discriminate|].
    inversion Hstep; subst; clear Hstep. open_inv.
    split; [|split; [|split]]; try assumption.
    + unfold slot_ok in *. rewrite sent_cancel. cbn. exact Hs.
    + eapply main_ok_mono; [eassumption|reflexivity|reflexivity].
Qed.

(** Both entry points announce the port, make the channel, start one
    goroutine and wait; the steps before the goroutine exists are the
    caller's alone. *)
Section EntryPoint.

Variable fwd : PortForwarder.
Variable ctx : Context.
Variable entry : prog error.
Variable g : channelID -> gname.

Hypothesis entry_step : forall pd w,
  tstep pd Continue entry w =
  Some (launch ctx (g (fst (startSharing (session fwd) (name fwd) (remotePort fwd)))),
        log (EvStartSharing (name fwd) (remotePort fwd)) w,
        []).

Lemma early_inv_step (l : label) (s s' : state) :
  early_inv ctx entry g s -> step l s = Some s' -> phase_inv ctx entry g s'.
Proof.
  intros (Hpool & Hr & Hmain) Hstep. destruct s as [w m pool].
  cbn [st_world st_main st_pool] in *. subst pool.
  destruct l as [pd|i|]; cbn [step st_world st_main st_pool] in Hstep.
  - destruct Hmain as [-> | [[id ->] | [id (-> & He & Hs)]]].
    + rewrite entry_step in Hstep. inversion Hstep; subst; clear Hstep.
      left. split; [reflexivity|]. split; [exact Hr|]. right. left. eexists. reflexivity.
    + cbn in Hstep. inversion Hstep; subst; clear Hstep.
      left. split; [reflexivity|]. split; [reflexivity|]. right. right. exists id.
      cbn [st_world st_main]. split; [reflexivity|]. split; [reflexivity|apply sent_make_chan].
    + cbn in Hstep. inversion Hstep; subst; clear Hstep.
      right. unfold late_inv. cbn [st_world st_main st_pool map app].
      split; [|split; [|split]].
      * unfold slot_ok. change (recvd (log (EvGo (g id)) w)) with (recvd w).
        change (errc (log (EvGo (g id)) w)) with (errc w).
        change (sent (log (EvGo (g id)) w)) with (sent w).
        rewrite Hr, He. exact Hs.
      * split; cbn; [rewrite He; discriminate|rewrite Hr; intros e []].
      * apply main_waiting. exact Hr.
      * constructor; [apply worker_ok_body|constructor].
  - destruct i; discriminate.
  - destruct (done w); [discriminate|]. inversion Hstep; subst; clear Hstep.
    left. split; [reflexivity|]. cbn [st_world st_main]. split; [exact Hr|].
    destruct Hmain as [-> | [[id ->] | [id (-> & He & Hs)]]].
    + left. reflexivity.
    + right. left. exists id. reflexivity.
    + right. right. exists id. rewrite sent_cancel. auto.
Qed.

Lemma phase_inv_step (l : label) (s s' : state) :
  phase_inv ctx entry g s -> step l s = Some s' -> phase_inv ctx entry g s'.
Proof.
  intros [H|H] Hstep.
  - eapply early_inv_step; eassumption.
  - right. eapply late_inv_step; eassumption.
Qed.

Lemma phase_inv_exec (sched : list label) (s s' : state) :
  phase_inv ctx entry g s -> exec sched s = Some s' -> phase_inv ctx entry g s'.
Proof.
  revert s. induction sched as [|l sched IH]; intros s Hinv Hex; cbn in Hex.
  - inversion Hex; subst. exact Hinv.
  - destruct (step l s) as [s1|] eqn:Hs; [|discriminate].
    apply (IH s1); [|exact Hex]. eapply phase_inv_step; eassumption.
Qed.

Lemma phase_inv_reachable (cancelled : bool) (listen : list (ReadWriteCloser * error))
    (s : state) :
  reachable (mkState (new_world cancelled listen) entry []) s ->
  phase_inv ctx entry g s.
Proof.
  intros [sched Hex]. eapply phase_inv_exec; [|exact Hex].
  left. split; [reflexivity|]. split; [reflexivity|]. left. reflexivity.
Qed.

(** Once the caller has returned: it returned the one error it received,
    which is the first error ever sent, or the context was cancelled and
    it returned [ctx.Err()]. *)
Lemma phase_inv_returned (cancelled : bool) (listen : list (ReadWriteCloser * error))
    (s : state) (r : error) :
  reachable (mkState (new_world cancelled listen) entry []) s ->
  st_main s = Ret r ->
  nonnil_ok (st_world s)
  /\ ((recvd (st_world s) = [r] /\ exists rest, sent (st_world s) = r :: rest)
      \/ (recvd (st_world s) = [] /\ done (st_world s) = true /\ r = cause ctx)).
Proof.
  intros Hreach Hret.
  destruct (phase_inv_reachable Hreach) as [(_ & _ & Hm)|(Hs & Hn & Hm & _)].
  - exfalso. rewrite Hret in Hm.
    destruct Hm as [He | [[id He] | [id (He & _)]]].
    + pose proof (entry_step false (new_world false [])) as Hst.
      rewrite <- He in Hst. discriminate Hst.
    + discriminate He.
    + discriminate He.
  - split; [exact Hn|].
    rewrite Hret in Hm. inversion Hm as [| |e Hr He|Hr Hd He]; subst.
    + left. split; [exact Hr|]. unfold slot_ok in Hs. rewrite Hr in Hs. exact Hs.
    + right. auto.
Qed.

(** The caller receives from the channel at most once, and what it
    receives is the first error ever sent. *)
Lemma phase_inv_received (cancelled : bool) (listen : list (ReadWriteCloser * error))
    (s : state) :
  reachable (mkState (new_world cancelled listen) entry []) s ->
  recvd (st_world s) = []
  \/ exists e rest, recvd (st_world s) = [e] /\ sent (st_world s) = e :: rest.
Proof.
  intros Hreach.
  destruct (phase_inv_reachable Hreach) as [(_ & Hr & _)|(Hs & _ & _ & _)].
  - left. exact Hr.
  - unfold slot_ok in Hs. destruct (recvd (st_world s)) as [|e [|e' l]].
    + left. reflexivity.
    + right. destruct Hs as [rest Hs]. eauto.
    + contradiction.
Qed.

End EntryPoint.

(** ** The connection handler *)

Lemma run_thread_runs (A : Type) (fuel : nat) (p q : prog A) (w w' : world) (gs : list gname) :
  run_thread fuel Continue p w = (q, w', gs) -> runs (p, w) (q, w').
Proof.
  revert p w gs. induction fuel as [|fuel IH]; intros p w gs H; cbn in H.
  - inversion H; subst. apply runs_refl.
  - destruct (tstep false Continue p w) as [[[p1 w1] gs1]|] eqn:Hs.
    + destruct (run_thread fuel Continue p1 w1) as [[q2 w2] gs2] eqn:Hr.
      inversion H; subst. eapply runs_step; [exact Hs|]. eapply IH. exact Hr.
    + inversion H; subst. apply runs_refl.
Qed.

Lemma closes_same_Local (id : nat) (t : list event) :
  closes Local id (EvClose Local id :: t) = S (closes Local id t).
Proof. cbn. rewrite Nat.eqb_refl. reflexivity. Qed.

Lemma closes_same_Remote (id : nat) (t : list event) :
  closes Remote id (EvClose Remote id :: t) = S (closes Remote id t).
Proof. cbn. rewrite Nat.eqb_refl. reflexivity. Qed.

Lemma closes_other_Local (id id' : nat) (t : list event) :
  id <> id' -> closes Local id (EvClose Local id' :: t) = closes Local id t.
Proof. intros H. cbn. apply Nat.eqb_neq in H. rewrite H. reflexivity. Qed.

Lemma closes_other_Remote (id id' : nat) (t : list event) :
  id <> id' -> closes Remote id (EvClose Remote id' :: t) = closes Remote id t.
Proof. intros H. cbn. apply Nat.eqb_neq in H. rewrite H. reflexivity. Qed.

(** A handler returns as soon as the channel cannot be opened, or once the
    context is cancelled. *)
Lemma handleConnection_returns (fwd : PortForwarder) (ctx : Context) (id : channelID)
    (conn : ReadWriteCloser) (w : world) :
  exists r w', runs (handleConnection fwd ctx id conn, w) (Ret r, w').
Proof.
  assert (H : forall w1, done w1 = true -> opened w1 = opened w ->
                         exists r w', runs (handleConnection fwd ctx id conn, w1) (Ret r, w')).
  { intros w1 Hd Hop.
    destruct (openStreamingChannel (session fwd) (opened w) id) as [channel oe] eqn:Ho.
    destruct oe as [e|]; eexists; eexists;
      eapply run_thread_runs with (fuel := 8);
      unfold handleConnection, defer; cbn; rewrite Hop, Ho; cbn;
      try rewrite Hd; cbn; reflexivity. }
  destruct (done w) eqn:Hd.
  - apply H; [exact Hd|reflexivity].
  - destruct (H (cancel w)) as (r & w' & Hrun); [reflexivity|reflexivity|].
    exists r, w'. apply runs_cancel; assumption.
Qed.

Lemma closes_Remote_Local (id id' : nat) (t : list event) :
  closes Remote id (EvClose Local id' :: t) = closes Remote id t.
Proof. reflexivity. Qed.

(** C3.  When the remote channel was opened and no error was recorded
    before it is closed (the context reported none), a close error [io.EOF]
    of the remote channel is suppressed: the handler returns the result of
    closing the local connection, exactly as if the remote close had
    succeeded, and so never an [io.EOF] of the remote channel's.  Any other
    close error of the remote channel is what the handler returns; and when
    an earlier error exists, the handler returns that one, whatever closing
    the remote channel reports. *)
Theorem handleConnection_suppresses_spurious_EOF
    (fwd : PortForwarder) (ctx : Context) (id : channelID) (conn channel : ReadWriteCloser)
    (w w' : world) (r : error) :
  runs (handleConnection fwd ctx id conn, w) (Ret r, w') ->
  openStreamingChannel (session fwd) (opened w) id = (channel, nil_error) ->
  (cause ctx = None -> rwc_close channel = Some io_EOF ->
   r = rwc_close conn
   /\ r = recorded_close_error (mkRWC (rwc_id channel) (rwc_reads channel)
                                      (rwc_write channel) nil_error) conn)
  /\ (cause ctx = None -> forall e, rwc_close channel = Some e -> e <> io_EOF -> r = Some e)
  /\ (forall e0, cause ctx = Some e0 -> r = Some e0).
Proof.
  intros Hrun Hopen. apply handleConnection_runs in Hrun. rewrite Hopen in Hrun.
  destruct Hrun as (_ & Hr & _).
  split; [|split].
  - intros Hc Hclose. rewrite Hc in Hr. unfold recorded_close_error in *.
    rewrite Hclose in Hr. cbn in Hr. cbn. split; exact Hr.
  - intros Hc e Hclose Hne. rewrite Hc in Hr. unfold recorded_close_error in Hr.
    rewrite Hclose in Hr. destruct e; try contradiction; exact Hr.
  - intros e0 Hc. rewrite Hc in Hr. exact Hr.
Qed.

(** C4.  The value [handleConnection] returns is the first non-nil one of
    the channel-open failure, the context's error and the first recorded
    close error, in this order; and whichever it is, the local connection
    has been closed, and so has the remote channel when it was opened. *)
Theorem handleConnection_result_priority
    (fwd : PortForwarder) (ctx : Context) (id : channelID) (conn : ReadWriteCloser)
    (w w' : world) (r : error) :
  runs (handleConnection fwd ctx id conn, w) (Ret r, w') ->
  let channel := fst (openStreamingChannel (session fwd) (opened w) id) in
  let open_err := snd (openStreamingChannel (session fwd) (opened w) id) in
  r = first_non_nil
        [ match open_err with Some e => open_failure e | None => nil_error end;
          ctx_Err ctx w';
          recorded_close_error channel conn ]
  /\ closes Local (rwc_id conn) (trace w) < closes Local (rwc_id conn) (trace w')
  /\ (open_err = None ->
      closes Remote (rwc_id channel) (trace w) < closes Remote (rwc_id channel) (trace w')).
Proof.
  intros Hrun. apply handleConnection_runs in Hrun.
  destruct (openStreamingChannel (session fwd) (opened w) id) as [channel [e|]]; cbn.
  - destruct Hrun as (Hr & Ht). rewrite Ht, closes_same_Local.
    split; [exact Hr|]. split; [cbn; lia|discriminate].
  - destruct Hrun as (Hd & Hr & Ht). unfold ctx_Err. rewrite Hd, Ht, closes_same_Local.
    split; [|split].
    + rewrite Hr. destruct (cause ctx); [reflexivity|].
      destruct (recorded_close_error channel conn); reflexivity.
    + cbn. lia.
    + intros _. rewrite closes_Remote_Local, closes_same_Remote. cbn [closes]. lia.
Qed.

(** C5.  On every return of [handleConnection] the local connection has
    been closed exactly once, also when the remote channel could not be
    opened, in which case no remote channel was closed; when the channel was
    opened it has been closed exactly once, and no other stream was closed. *)
Theorem handleConnection_closes_exactly_once
    (fwd : PortForwarder) (ctx : Context) (id : channelID) (conn : ReadWriteCloser)
    (w w' : world) (r : error) :
  runs (handleConnection fwd ctx id conn, w) (Ret r, w') ->
  closes Local (rwc_id conn) (trace w') = S (closes Local (rwc_id conn) (trace w))
  /\ (forall c, c <> rwc_id conn -> closes Local c (trace w') = closes Local c (trace w))
  /\ match openStreamingChannel (session fwd) (opened w) id with
     | (_, Some _) => forall c, closes Remote c (trace w') = closes Remote c (trace w)
     | (channel, None) =>
         closes Remote (rwc_id channel) (trace w')
         = S (closes Remote (rwc_id channel) (trace w))
         /\ (forall c, c <> rwc_id channel ->
                       closes Remote c (trace w') = closes Remote c (trace w))
     end.
Proof.
  intros Hrun. apply handleConnection_runs in Hrun.
  destruct (openStreamingChannel (session fwd) (opened w) id) as [channel [e|]].
  - destruct Hrun as (_ & Ht). rewrite Ht.
    split; [rewrite closes_same_Local; reflexivity|]. split.
    + intros c Hc. rewrite closes_other_Local by exact Hc. reflexivity.
    + intros c. reflexivity.
  - destruct Hrun as (_ & _ & Ht). rewrite Ht.
    split; [rewrite closes_same_Local; reflexivity|]. split; [|split].
    + intros c Hc. rewrite closes_other_Local by exact Hc. reflexivity.
    + rewrite closes_Remote_Local, closes_same_Remote. reflexivity.
    + intros c Hc. rewrite closes_Remote_Local. rewrite closes_other_Remote by exact Hc.
      reflexivity.
Qed.

(** ** The entry points *)

Lemma shareRemotePort_step (fwd : PortForwarder) (ctx : Context) (pd : bool) (w : world) :
  tstep pd Continue (shareRemotePort fwd ctx) w =
  Some (Ret (fst (startSharing (session fwd) (name fwd) (remotePort fwd)), nil_error),
        log (EvStartSharing (name fwd) (remotePort fwd)) w,
        []).
Proof.
  unfold shareRemotePort. cbn.
  destruct (startSharing (session fwd) (name fwd) (remotePort fwd)) as [id [e|]]; reflexivity.
Qed.

Lemma ForwardToListener_step (fwd : PortForwarder) (ctx : Context) (pd : bool) (w : world) :
  tstep pd Continue (ForwardToListener fwd ctx) w =
  Some (launch ctx (AcceptLoop fwd ctx
                      (fst (startSharing (session fwd) (name fwd) (remotePort fwd)))),
        log (EvStartSharing (name fwd) (remotePort fwd)) w,
        []).
Proof.
  unfold ForwardToListener, shareRemotePort. cbn.
  destruct (startSharing (session fwd) (name fwd) (remotePort fwd)) as [id [e|]]; reflexivity.
Qed.

Lemma Forward_step (fwd : PortForwarder) (ctx : Context) (conn : ReadWriteCloser)
    (pd : bool) (w : world) :
  tstep pd Continue (Forward fwd ctx conn) w =
  Some (launch ctx (StreamHandler fwd ctx
                      (fst (startSharing (session fwd) (name fwd) (remotePort fwd))) conn),
        log (EvStartSharing (name fwd) (remotePort fwd)) w,
        []).
Proof.
  unfold Forward, shareRemotePort. cbn.
  destruct (startSharing (session fwd) (name fwd) (remotePort fwd)) as [id [e|]]; reflexivity.
Qed.

Lemma returned_stays (s s' : state) (l : label) (r : error) :
  st_main s = Ret r -> step l s = Some s' -> st_main s' = Ret r.
Proof.
  intros Hm Hstep. destruct s as [w m pool]. cbn in Hm. subst m.
  destruct l as [pd|i|]; cbn in Hstep.
  - discriminate.
  - destruct (nth_error pool i) as [[g p]|]; [|discriminate].
    destruct (tstep false (body g) p w) as [[[p1 w1] gs]|]; [|discriminate].
    inversion Hstep; subst. reflexivity.
  - destruct (done w); [discriminate|]. inversion Hstep; subst. reflexivity.
Qed.

(** C6, as amended.  [ForwardToListener] returns one value: the first error
    a connection handler or the accept loop sent, or the context's error,
    the latter only when the context is done.  If the context is not done
    when it returns, it returns the first error sent; if nothing was sent,
    it returns the context's error; when both have occurred either may be
    returned.  Nothing that happens afterwards changes the value returned. *)
Theorem ForwardToListener_returns_one_signal
    (fwd : PortForwarder) (ctx : Context) (cancelled : bool)
    (listen : list (ReadWriteCloser * error)) (s : state) (r : error) :
  reachable (call_ForwardToListener fwd ctx cancelled listen) s ->
  st_main s = Ret r ->
  ((exists rest, sent (st_world s) = r :: rest)
   \/ (done (st_world s) = true /\ r = cause ctx))
  /\ (done (st_world s) = false -> exists rest, sent (st_world s) = r :: rest)
  /\ (sent (st_world s) = [] -> r = cause ctx)
  /\ (forall l s', step l s = Some s' -> st_main s' = Ret r).
Proof.
  intros Hreach Hret.
  destruct (@phase_inv_returned fwd ctx (ForwardToListener fwd ctx) (AcceptLoop fwd ctx)
              (ForwardToListener_step fwd ctx) cancelled listen s r Hreach Hret)
    as (_ & [(_ & rest & Hs) | (_ & Hd & Hr)]).
  - split; [left; eauto|]. split; [eauto|]. split.
    + intros Hnil. rewrite Hnil in Hs. discriminate.
    + intros l s' Hstep. eapply returned_stays; eassumption.
  - split; [right; auto|]. split; [|split].
    + intros Hf. congruence.
    + intros _. exact Hr.
    + intros l s' Hstep. eapply returned_stays; eassumption.
Qed.

(** C10.  With a context whose [Err] is non-nil once it is done, whatever
    [ForwardToListener] or [Forward] returns is a non-nil error. *)
Theorem entry_points_return_non_nil
    (fwd : PortForwarder) (ctx : Context) (cancelled : bool)
    (listen : list (ReadWriteCloser * error)) (conn : ReadWriteCloser)
    (s : state) (r : error) :
  conforming ctx ->
  reachable (call_ForwardToListener fwd ctx cancelled listen) s
  \/ reachable (call_Forward fwd ctx cancelled conn) s ->
  st_main s = Ret r ->
  r <> nil_error.
Proof.
  intros Hctx Hreach Hret.
  assert (H : nonnil_ok (st_world s)
              /\ ((recvd (st_world s) = [r] /\ exists rest, sent (st_world s) = r :: rest)
                  \/ (recvd (st_world s) = [] /\ done (st_world s) = true /\ r = cause ctx))).
  { destruct Hreach as [Hreach|Hreach].
    - exact (@phase_inv_returned fwd ctx (ForwardToListener fwd ctx) (AcceptLoop fwd ctx)
               (ForwardToListener_step fwd ctx) cancelled listen s r Hreach Hret).
    - exact (@phase_inv_returned fwd ctx (Forward fwd ctx conn)
               (fun id => StreamHandler fwd ctx id conn)
               (Forward_step fwd ctx conn) cancelled [] s r Hreach Hret). }
  destruct H as ([_ Hn] & [(Hr & _) | (_ & _ & Hr)]).
  - apply Hn. rewrite Hr. left. reflexivity.
  - rewrite Hr. exact Hctx.
Qed.

(** ** The accept loop *)

Lemma run_thread_Ret (A : Type) (fuel : nat) (head : prog A) (a : A) (w : world) :
  run_thread fuel head (Ret a) w = (Ret a, w, []).
Proof. destruct fuel; reflexivity. Qed.

Lemma acceptLoop_turn (head : prog unit) (fwd : PortForwarder) (ctx : Context)
    (id : channelID) (c : ReadWriteCloser) (l : list (ReadWriteCloser * error))
    (w : world) (fuel : nat) :
  listener w = (c, nil_error) :: l ->
  run_thread (S (S (S fuel))) head (acceptLoop fwd ctx id) w =
  let '(q, w', gs) :=
    run_thread fuel head head (log (EvGo (ListenerHandler fwd ctx id c)) (next_accept w)) in
  (q, w', ListenerHandler fwd ctx id c :: gs).
Proof.
  intros Hl. unfold acceptLoop. cbn. rewrite Hl. cbn.
  destruct (run_thread fuel head head _) as [[q w'] gs]. reflexivity.
Qed.

Lemma acceptLoop_last_turn (head : prog unit) (fwd : PortForwarder) (ctx : Context)
    (id : channelID) (bad : ReadWriteCloser) (e : goerr)
    (l : list (ReadWriteCloser * error)) (w : world) (fuel : nat) :
  listener w = (bad, Some e) :: l ->
  run_thread (S (S fuel)) head (acceptLoop fwd ctx id) w =
  (Ret tt, offer (Some e) (next_accept w), []).
Proof.
  intros Hl. unfold acceptLoop. cbn. rewrite Hl. cbn.
  rewrite run_thread_Ret. reflexivity.
Qed.

(** On a listener that yields the connections [conns] and then an error,
    the accepting goroutine starts one goroutine for each of [conns], in
    order, sends the error of the first failing [Accept] with [sendError]
    and returns, without accepting again. *)
Lemma acceptLoop_run_to_first_error
    (fwd : PortForwarder) (ctx : Context) (id : channelID)
    (conns : list ReadWriteCloser) (bad : ReadWriteCloser) (e : goerr)
    (rest : list (ReadWriteCloser * error)) (w : world) (fuel : nat) :
  listener w = map (fun c => (c, nil_error)) conns ++ (bad, Some e) :: rest ->
  3 * length conns + 2 <= fuel ->
  exists w',
    run_thread fuel (body (AcceptLoop fwd ctx id)) (body (AcceptLoop fwd ctx id)) w
    = (Ret tt, w', map (ListenerHandler fwd ctx id) conns)
    /\ listener w' = rest
    /\ fired w' = fired w ++ [SigError (Some e)]
    /\ errc w' = match errc w with None => Some (Some e) | Some x => Some x end.
Proof.
  change (body (AcceptLoop fwd ctx id)) with (acceptLoop fwd ctx id).
  revert w fuel. induction conns as [|c conns IH]; intros w fuel Hl Hfuel; cbn in Hl.
  - destruct fuel as [|[|fuel]]; [cbn in Hfuel; lia|cbn in Hfuel; lia|].
    exists (offer (Some e) (next_accept w)).
    rewrite acceptLoop_last_turn with (bad := bad) (e := e) (l := rest) by exact Hl.
    cbn. rewrite Hl.
    repeat split; reflexivity.
  - destruct fuel as [|[|[|fuel]]]; try (cbn in Hfuel; lia).
    destruct (IH (log (EvGo (ListenerHandler fwd ctx id c)) (next_accept w)) fuel)
      as (w' & Hrun & Hl' & Hf' & He').
    + cbn. rewrite Hl. reflexivity.
    + cbn in Hfuel. lia.
    + exists w'.
      rewrite acceptLoop_turn with (c := c) (l := map (fun c => (c, nil_error)) conns ++ (bad, Some e) :: rest)
        by exact Hl.
      rewrite Hrun.
      split; [reflexivity|]. auto.
Qed.

(** ** The announcement failure that is lost *)

(** C1 (the code departs from it).  The session refuses to share port 8080;
    [shareRemotePort] returns a nil error all the same, not the wrapped
    failure. *)
Theorem shareRemotePort_drops_announcement_failure :
  startSharing (session refused_fwd) (name refused_fwd) (remotePort refused_fwd)
  = (0, Some (errorString "connection refused"))
  /\ run_thread 4 Continue (shareRemotePort refused_fwd std_ctx) fresh
     = (Ret (0, nil_error), log (EvStartSharing "web" 8080) fresh, [])
  /\ nil_error <> announcement_failure.
Proof.
  split; [reflexivity|]. split; [reflexivity|]. discriminate.
Qed.

(** C2 (the code departs from it).  [Forward] on the same session: the
    announcement failure goes unnoticed, the handler runs and opens a remote
    channel for the stream, the stream is not closed by [Forward], and what
    [Forward] returns after a cancellation is the context's error, not the
    announcement failure. *)
Theorem Forward_misses_announcement_failure :
  snd (startSharing (session refused_fwd) (name refused_fwd) (remotePort refused_fwd))
  <> nil_error
  /\ exec handler_opens stream_call = Some (run_schedule handler_opens stream_call)
  /\ opens (trace (st_world (run_schedule handler_opens stream_call))) = 1
  /\ closes Local (rwc_id web_conn)
       (trace (st_world (run_schedule handler_opens stream_call))) = 0
  /\ exec handler_opens_then_cancel stream_call
     = Some (run_schedule handler_opens_then_cancel stream_call)
  /\ st_main (run_schedule handler_opens_then_cancel stream_call)
     = Ret (Some context_Canceled)
  /\ closes Local (rwc_id web_conn)
       (trace (st_world (run_schedule handler_opens_then_cancel stream_call))) = 0
  /\ Some context_Canceled <> announcement_failure.
Proof.
  split; [discriminate|]. repeat (split; [reflexivity|]). discriminate.
Qed.

(** ** First fired, first served? *)

(** C6 as stated fails.  The context is cancelled before the call and the
    listener is closed; the accept loop sends its error before the caller
    reaches its [select], which then finds both cases ready and may take the
    error: cancellation occurred first, yet the error is returned. *)
Lemma first_signal_wins_fails :
  reachable (listener_call true) (run_schedule accept_fails (listener_call true))
  /\ st_main (run_schedule accept_fails (listener_call true)) = Ret (Some listener_closed)
  /\ fired (st_world (run_schedule accept_fails (listener_call true)))
     = [SigCancel; SigError (Some listener_closed)]
  /\ Some listener_closed <> cause std_ctx
  /\ (first_signal_wins web_fwd std_ctx true closed_listener -> False).
Proof.
  assert (Hr : reachable (listener_call true) (run_schedule accept_fails (listener_call true))).
  { exists accept_fails. reflexivity. }
  split; [exact Hr|]. split; [reflexivity|]. split; [reflexivity|].
  split; [discriminate|].
  intros H. specialize (H _ (Some listener_closed) Hr eq_refl).
  cbn in H. discriminate H.
Qed.

(** ** The theorems at work on the fixtures *)

Lemma web_handler_exits (ctx : Context) :
  runs (handleConnection web_fwd ctx 7 web_conn, fresh)
       (Ret (match cause ctx with Some e => Some e | None => nil_error end), web_exit_world).
Proof.
  apply runs_cancel; [reflexivity|].
  apply run_thread_runs with (fuel := 8) (gs := []).
  destruct ctx as [[e|]]; reflexivity.
Qed.

(** C3 on a handler whose context reports no error and whose remote channel
    answers [io.EOF] on [Close]: the handler returns nil. *)
Lemma handleConnection_suppresses_spurious_EOF_witness :
  runs (handleConnection web_fwd silent_ctx 7 web_conn, fresh) (Ret nil_error, web_exit_world)
  /\ openStreamingChannel (session web_fwd) (opened fresh) 7 = (web_channel, nil_error)
  /\ (cause silent_ctx = None -> rwc_close web_channel = Some io_EOF ->
      nil_error = rwc_close web_conn
      /\ nil_error = recorded_close_error
                       (mkRWC (rwc_id web_channel) (rwc_reads web_channel)
                              (rwc_write web_channel) nil_error) web_conn)
  /\ (cause silent_ctx = None ->
      forall e, rwc_close web_channel = Some e -> e <> io_EOF -> nil_error = Some e)
  /\ (forall e0, cause silent_ctx = Some e0 -> nil_error = Some e0).
Proof.
  assert (Hrun : runs (handleConnection web_fwd silent_ctx 7 web_conn, fresh)
                      (Ret nil_error, web_exit_world)).
  { exact (web_handler_exits silent_ctx). }
  assert (Hopen : openStreamingChannel (session web_fwd) (opened fresh) 7
                  = (web_channel, nil_error)).
  { reflexivity. }
  split; [exact Hrun|]. split; [exact Hopen|].
  exact (handleConnection_suppresses_spurious_EOF Hrun Hopen).
Defined.

(** C4 on a handler whose context was cancelled: it returns the context's
    error, both streams closed. *)
Lemma handleConnection_result_priority_witness :
  runs (handleConnection web_fwd std_ctx 7 web_conn, fresh)
       (Ret (Some context_Canceled), web_exit_world)
  /\ Some context_Canceled
     = first_non_nil [nil_error; ctx_Err std_ctx web_exit_world;
                      recorded_close_error web_channel web_conn]
  /\ closes Local 1 (trace fresh) < closes Local 1 (trace web_exit_world)
  /\ (nil_error = None ->
      closes Remote 2 (trace fresh) < closes Remote 2 (trace web_exit_world)).
Proof.
  assert (Hrun : runs (handleConnection web_fwd std_ctx 7 web_conn, fresh)
                      (Ret (Some context_Canceled), web_exit_world)).
  { exact (web_handler_exits std_ctx). }
  split; [exact Hrun|].
  exact (handleConnection_result_priority Hrun).
Defined.

(** C5 on a handler whose session cannot open channels: the local
    connection is closed once and no remote channel is. *)
Lemma handleConnection_closes_exactly_once_witness :
  runs (handleConnection closed_fwd std_ctx 7 web_conn, fresh)
       (Ret (open_failure (errorString "session closed")), closed_exit_world)
  /\ closes Local 1 (trace closed_exit_world) = S (closes Local 1 (trace fresh))
  /\ (forall c, c <> 1 -> closes Local c (trace closed_exit_world) = closes Local c (trace fresh))
  /\ (forall c, closes Remote c (trace closed_exit_world) = closes Remote c (trace fresh)).
Proof.
  assert (Hrun : runs (handleConnection closed_fwd std_ctx 7 web_conn, fresh)
                      (Ret (open_failure (errorString "session closed")), closed_exit_world)).
  { apply run_thread_runs with (fuel := 8) (gs := []). reflexivity. }
  split; [exact Hrun|].
  exact (handleConnection_closes_exactly_once Hrun).
Defined.

(** C6 (amended) on a call whose listener is closed: the accept error is
    the first error sent and is what the caller returns. *)
Lemma ForwardToListener_returns_one_signal_witness :
  reachable (listener_call false) (run_schedule accept_fails (listener_call false))
  /\ st_main (run_schedule accept_fails (listener_call false)) = Ret (Some listener_closed)
  /\ ((exists rest,
         sent (st_world (run_schedule accept_fails (listener_call false)))
         = Some listener_closed :: rest)
      \/ (done (st_world (run_schedule accept_fails (listener_call false))) = true
          /\ Some listener_closed = cause std_ctx))
  /\ (done (st_world (run_schedule accept_fails (listener_call false))) = false ->
      exists rest,
        sent (st_world (run_schedule accept_fails (listener_call false)))
        = Some listener_closed :: rest)
  /\ (sent (st_world (run_schedule accept_fails (listener_call false))) = [] ->
      Some listener_closed = cause std_ctx)
  /\ (forall l s',
        step l (run_schedule accept_fails (listener_call false)) = Some s' ->
        st_main s' = Ret (Some listener_closed)).
Proof.
  assert (Hr : reachable (listener_call false)
                 (run_schedule accept_fails (listener_call false))).
  { exists accept_fails. reflexivity. }
  assert (Hm : st_main (run_schedule accept_fails (listener_call false))
               = Ret (Some listener_closed)).
  { reflexivity. }
  split; [exact Hr|]. split; [exact Hm|].
  exact (ForwardToListener_returns_one_signal Hr Hm).
Defined.

(** C10 on the call whose listener is closed. *)
Lemma entry_points_return_non_nil_witness :
  conforming std_ctx
  /\ reachable (listener_call false) (run_schedule accept_fails (listener_call false))
  /\ st_main (run_schedule accept_fails (listener_call false)) = Ret (Some listener_closed)
  /\ Some listener_closed <> nil_error.
Proof.
  assert (Hc : conforming std_ctx).
  { unfold conforming. cbn. discriminate. }
  assert (Hr : reachable (listener_call false)
                 (run_schedule accept_fails (listener_call false))).
  { exists accept_fails. reflexivity. }
  assert (Hm : st_main (run_schedule accept_fails (listener_call false))
               = Ret (Some listener_closed)).
  { reflexivity. }
  split; [exact Hc|]. split; [exact Hr|]. split; [exact Hm|].
  exact (entry_points_return_non_nil (conn := web_conn) Hc (or_introl Hr) Hm).
Defined.

(** ** More on the connection handler *)

(** X1.  With a context whose [Err] is non-nil once it is done,
    [handleConnection] never returns nil and never returns a close error:
    it returns the channel-open failure, or else, and only after the context
    is done, the context's error. *)
Theorem handleConnection_never_reports_close_errors
    (fwd : PortForwarder) (ctx : Context) (id : channelID) (conn : ReadWriteCloser)
    (w w' : world) (r : error) :
  conforming ctx ->
  runs (handleConnection fwd ctx id conn, w) (Ret r, w') ->
  r <> nil_error
  /\ match snd (openStreamingChannel (session fwd) (opened w) id) with
     | Some e => r = open_failure e
     | None => done w' = true /\ r = cause ctx
     end.
Proof.
  intros Hctx Hrun. apply handleConnection_runs in Hrun.
  destruct (openStreamingChannel (session fwd) (opened w) id) as [channel [e|]]; cbn.
  - destruct Hrun as (Hr & _). split; [rewrite Hr; discriminate|exact Hr].
  - destruct Hrun as (Hd & Hr & _). unfold conforming in Hctx.
    destruct (cause ctx) as [e|]; [|contradiction].
    split; [rewrite Hr; discriminate|]. split; [exact Hd|exact Hr].
Qed.

(** X2.  The calls a returning handler has made, in order: it asks the
    session for one channel; if that fails it starts no copy and closes the
    local connection; otherwise it starts the copy into the connection, then
    the copy into the channel, and on return closes the remote channel first
    and the local connection last.  It makes no other call. *)
Theorem handleConnection_call_order
    (fwd : PortForwarder) (ctx : Context) (id : channelID) (conn : ReadWriteCloser)
    (w w' : world) (r : error) :
  runs (handleConnection fwd ctx id conn, w) (Ret r, w') ->
  match openStreamingChannel (session fwd) (opened w) id with
  | (_, Some _) =>
      trace w' = EvClose Local (rwc_id conn) :: EvOpenChannel id :: trace w
      /\ copies (trace w') = copies (trace w)
  | (channel, None) =>
      trace w' =
        EvClose Local (rwc_id conn) :: EvClose Remote (rwc_id channel)
        :: EvGoCopy (RemoteChannel channel) (LocalConn conn)
        :: EvGoCopy (LocalConn conn) (RemoteChannel channel)
        :: EvOpenChannel id :: trace w
      /\ copies (trace w') = 2 + copies (trace w)
  end
  /\ opens (trace w') = S (opens (trace w))
  /\ shares (trace w') = shares (trace w).
Proof.
  intros Hrun. apply handleConnection_runs in Hrun.
  destruct (openStreamingChannel (session fwd) (opened w) id) as [channel [e|]].
  - destruct Hrun as (_ & Ht). rewrite Ht. repeat split; reflexivity.
  - destruct Hrun as (_ & _ & Ht). rewrite Ht. repeat split; reflexivity.
Qed.

(** ** More on the accept loop *)

(** X3.  As long as [Accept] succeeds the accepting goroutine starts one
    handler per connection, in order, sends nothing to the error channel,
    and is back at [Accept] when the listener has no connection pending. *)
Theorem acceptLoop_keeps_accepting
    (fwd : PortForwarder) (ctx : Context) (id : channelID)
    (conns : list ReadWriteCloser) (w : world) (fuel : nat) :
  listener w = map (fun c => (c, nil_error)) conns ->
  3 * length conns <= fuel ->
  exists w',
    run_thread fuel (body (AcceptLoop fwd ctx id)) (body (AcceptLoop fwd ctx id)) w
    = (body (AcceptLoop fwd ctx id), w', map (ListenerHandler fwd ctx id) conns)
    /\ listener w' = []
    /\ fired w' = fired w
    /\ errc w' = errc w
    /\ handlers_started (trace w') = length conns + handlers_started (trace w).
Proof.
  change (body (AcceptLoop fwd ctx id)) with (acceptLoop fwd ctx id).
  revert w fuel. induction conns as [|c conns IH]; intros w fuel Hl Hfuel; cbn in Hl.
  - exists w. split; [|auto].
    destruct fuel as [|fuel]; [reflexivity|].
    unfold acceptLoop at 2. cbn. rewrite Hl. reflexivity.
  - destruct fuel as [|[|[|fuel]]]; try (cbn in Hfuel; lia).
    destruct (IH (log (EvGo (ListenerHandler fwd ctx id c)) (next_accept w)) fuel)
      as (w' & Hrun & Hl' & Hf' & He' & Hh').
    + cbn. rewrite Hl. reflexivity.
    + cbn in Hfuel. lia.
    + exists w'.
      rewrite acceptLoop_turn with (c := c) (l := map (fun c => (c, nil_error)) conns)
        by exact Hl.
      rewrite Hrun. split; [reflexivity|].
      split; [exact Hl'|]. split; [exact Hf'|]. split; [exact He'|].
      rewrite Hh'. cbn. lia.
Qed.

(** ** More on [Forward] *)

(** X4.  [Forward] can return while the stream is still open: when the
    context is cancelled before the handler goroutine has run, the caller
    gets the context's error, the stream has not been closed, and closing it
    is left to the handler goroutine that is still to run. *)
Theorem Forward_may_return_with_stream_open
    (fwd : PortForwarder) (ctx : Context) (conn : ReadWriteCloser) :
  exists s id,
    exec cancelled_before_handler (call_Forward fwd ctx false conn) = Some s
    /\ st_main s = Ret (cause ctx)
    /\ closes Local (rwc_id conn) (trace (st_world s)) = 0
    /\ st_pool s = [start (StreamHandler fwd ctx id conn)].
Proof.
  eexists. exists (fst (startSharing (session fwd) (name fwd) (remotePort fwd))).
  unfold cancelled_before_handler, call_Forward.
  cbn [exec]. unfold step at 1. cbn [st_main st_world st_pool].
  rewrite Forward_step. cbn.
  split; [reflexivity|]. cbn. repeat split; reflexivity.
Qed.

(** ** The port is announced once *)

Lemma never_announces_bind (A B : Type) (p : prog A) (f : A -> prog B) :
  never_announces p -> (forall a, never_announces (f a)) -> never_announces (bind p f).
Proof.
  induction p as [a| |X a k IH]; cbn; intros Hp Hf.
  - apply Hf.
  - exact I.
  - destruct Hp as [Ha Hk]. split; [exact Ha|].
    intros x. apply IH; [apply Hk|exact Hf].
Qed.

Lemma never_announces_handleConnection (fwd : PortForwarder) (ctx : Context)
    (id : channelID) (conn : ReadWriteCloser) :
  never_announces (handleConnection fwd ctx id conn).
Proof.
  unfold handleConnection, defer, safeClose, closeChannel. cbn.
  split; [reflexivity|]. intros [channel [e|]]; cbn;
    repeat (split; [reflexivity|intros]); exact I.
Qed.

Lemma never_announces_body (g : gname) : never_announces (body g).
Proof.
  destruct g as [fwd ctx id|fwd ctx id conn|fwd ctx id conn]; unfold body.
  - unfold acceptLoop. cbn. split; [reflexivity|].
    intros [conn [e|]]; cbn; (split; [reflexivity|intros; exact I]).
  - apply never_announces_bind; [apply never_announces_handleConnection|].
    intros [e|]; cbn; [|exact I]. split; [reflexivity|intros; exact I].
  - apply never_announces_bind; [apply never_announces_handleConnection|].
    intros [e|]; cbn; [|exact I]. split; [reflexivity|intros; exact I].
Qed.

Lemma never_announces_launch (ctx : Context) (g : gname) : never_announces (launch ctx g).
Proof.
  unfold launch, launch2, awaitError. cbn.
  split; [reflexivity|]. intros _. split; [reflexivity|]. intros _.
  split; [reflexivity|]. intros [e|]; cbn; [exact I|].
  split; [reflexivity|]. intros; exact I.
Qed.

Lemma Forall_never_announces_started (gs : list gname) :
  Forall (fun gp : gname * prog unit => never_announces (snd gp)) (map start gs).
Proof.
  induction gs; cbn; constructor; auto. apply never_announces_body.
Qed.

Lemma perform_no_announce (X : Type) (a : action X) (pd : bool) (w w' : world) (x : X) :
  announces a = false ->
  perform pd a w = Some (x, w') ->
  shares (trace w') = shares (trace w).
Proof.
  intros Ha Hp.
  destruct a; cbn in Ha, Hp; try discriminate;
    try (inversion Hp; subst; reflexivity).
  - destruct (listener w); [discriminate|]. inversion Hp; subst. reflexivity.
  - destruct (done w); [|discriminate]. inversion Hp; subst. reflexivity.
  - destruct (errc w); [discriminate|]. inversion Hp; subst. reflexivity.
  - destruct (errc w) as [e|].
    + destruct (pd && done w); inversion Hp; subst; reflexivity.
    + destruct (done w); [|discriminate]. inversion Hp; subst. reflexivity.
Qed.

Lemma tstep_no_announce (A : Type) (pd : bool) (head p p' : prog A) (w w' : world)
    (gs : list gname) :
  never_announces head ->
  never_announces p ->
  tstep pd head p w = Some (p', w', gs) ->
  never_announces p' /\ shares (trace w') = shares (trace w).
Proof.
  intros Hh Hp Hs. destruct p as [a| |X a k]; cbn in Hs.
  - discriminate.
  - inversion Hs; subst. split; [exact Hh|reflexivity].
  - destruct (perform pd a w) as [[x w1]|] eqn:Ep; [|discriminate].
    inversion Hs; subst. destruct Hp as [Ha Hk].
    split; [apply Hk|]. eapply perform_no_announce; eassumption.
Qed.

Section AnnounceOnce.

Variable fwd : PortForwarder.
Variable ctx : Context.
Variable entry : prog error.
Variable g : channelID -> gname.

Hypothesis entry_step : forall pd w,
  tstep pd Continue entry w =
  Some (launch ctx (g (fst (startSharing (session fwd) (name fwd) (remotePort fwd)))),
        log (EvStartSharing (name fwd) (remotePort fwd)) w,
        []).

Lemma share_inv_step (l : label) (s s' : state) :
  share_inv entry s -> step l s = Some s' -> share_inv entry s'.
Proof.
  intros [Hpool Hmain] Hstep. destruct s as [w m pool].
  cbn [st_world st_main st_pool] in *.
  destruct l as [pd|i|]; cbn [step st_world st_main st_pool] in Hstep.
  - destruct Hmain as [(-> & -> & Hs) | (Hm & Hs)].
    + rewrite entry_step in Hstep. inversion Hstep; subst; clear Hstep.
      split; [constructor|]. right. cbn [st_world st_main trace log shares].
      split; [apply never_announces_launch|]. rewrite Hs. reflexivity.
    + destruct (tstep pd Continue m w) as [[[p1 w1] gs]|] eqn:Et; [|discriminate].
      inversion Hstep; subst; clear Hstep.
      destruct (tstep_no_announce pd Continue m w I Hm Et) as [Hp1 Hs1].
      split; [apply Forall_app; split; [exact Hpool|apply Forall_never_announces_started]|].
      right. cbn [st_world st_main]. split; [exact Hp1|]. rewrite Hs1. exact Hs.
  - destruct (nth_error pool i) as [[g0 p]|] eqn:En; [|discriminate].
    destruct (tstep false (body g0) p w) as [[[p1 w1] gs]|] eqn:Et; [|discriminate].
    inversion Hstep; subst; clear Hstep.
    assert (Hp : never_announces p).
    { apply nth_error_In in En. rewrite Forall_forall in Hpool. apply (Hpool (g0, p)). exact En. }
    destruct (tstep_no_announce false (body g0) p w (never_announces_body g0) Hp Et)
      as [Hp1 Hs1].
    split.
    + apply Forall_app. split; [|apply Forall_never_announces_started].
      apply Forall_replace_nth; [exact Hp1|exact Hpool].
    + cbn [st_world st_main st_pool]. rewrite Hs1.
      destruct Hmain as [(Hm & Hnil & Hs) | (Hm & Hs)].
      * subst pool. destruct i; discriminate En.
      * right. split; assumption.
  - destruct (done w); [discriminate|]. inversion Hstep; subst; clear Hstep.
    split; [exact Hpool|]. exact Hmain.
Qed.

Lemma share_inv_exec (sched : list label) (s s' : state) :
  share_inv entry s -> exec sched s = Some s' -> share_inv entry s'.
Proof.
  revert s. induction sched as [|l sched IH]; intros s Hinv Hex; cbn in Hex.
  - inversion Hex; subst. exact Hinv.
  - destruct (step l s) as [s1|] eqn:Hs; [|discriminate].
    apply (IH s1); [|exact Hex]. eapply share_inv_step; eassumption.
Qed.

Lemma share_inv_reachable (cancelled : bool) (listen : list (ReadWriteCloser * error))
    (s : state) :
  reachable (mkState (new_world cancelled listen) entry []) s ->
  shares (trace (st_world s)) <= 1
  /\ (forall r, st_main s = Ret r -> shares (trace (st_world s)) = 1)
  /\ (st_pool s <> [] -> shares (trace (st_world s)) = 1).
Proof.
  intros [sched Hex].
  assert (Hinv : share_inv entry s).
  { eapply share_inv_exec; [|exact Hex]. split; [constructor|].
    left. repeat split; reflexivity. }
  destruct Hinv as [_ [(Hm & Hp & Hs) | (_ & Hs)]].
  - split; [lia|]. split.
    + intros r Hr. exfalso. rewrite Hm in Hr.
      pose proof (entry_step false fresh) as Hst. rewrite Hr in Hst. discriminate Hst.
    + intros Hne. contradiction.
  - split; [lia|]. split; auto.
Qed.

End AnnounceOnce.

(** X5.  In every interleaving of a call of [ForwardToListener] or
    [Forward], [startSharing] is called at most once, and exactly once
    before any goroutine is started or anything is returned: neither the
    accept loop nor a handler announces the port again. *)
Theorem port_announced_once
    (fwd : PortForwarder) (ctx : Context) (cancelled : bool)
    (listen : list (ReadWriteCloser * error)) (conn : ReadWriteCloser) (s : state) :
  reachable (call_ForwardToListener fwd ctx cancelled listen) s
  \/ reachable (call_Forward fwd ctx cancelled conn) s ->
  shares (trace (st_world s)) <= 1
  /\ (forall r, st_main s = Ret r -> shares (trace (st_world s)) = 1)
  /\ (st_pool s <> [] -> shares (trace (st_world s)) = 1).
Proof.
  intros [Hreach|Hreach].
  - exact (@share_inv_reachable fwd ctx (ForwardToListener fwd ctx) (AcceptLoop fwd ctx)
             (ForwardToListener_step fwd ctx) cancelled listen s Hreach).
  - exact (@share_inv_reachable fwd ctx (Forward fwd ctx conn)
             (fun id => StreamHandler fwd ctx id conn)
             (Forward_step fwd ctx conn) cancelled [] s Hreach).
Qed.

(** ** One handler, one stream: [Forward] under every interleaving *)

Lemma sent_log (e : event) (w : world) : sent (log e w) = sent w.
Proof. reflexivity. Qed.

Lemma sent_take (err : error) (w : world) : sent (take err w) = sent w.
Proof. reflexivity. Qed.

(** What one action of a handler adds to the record. *)
Lemma perform_effect (X : Type) (a : action X) (pd : bool) (w w' : world) (x : X) (c : nat) :
  perform pd a w = Some (x, w') ->
  kind_of a <> KForbidden ->
  spawned a = []
  /\ length (sent w')
     = length (sent w) + match kind_of a with KSend => 1 | _ => 0 end
  /\ closes Local c (trace w')
     = closes Local c (trace w)
       + match kind_of a with
         | KCloseLocal id => if Nat.eqb id c then 1 else 0
         | _ => 0
         end
  /\ opens (trace w')
     = opens (trace w) + match kind_of a with KOpen => 1 | _ => 0 end.
Proof.
  intros Hp Hk. unfold sent.
  destruct a; cbn in Hk; try (exfalso; apply Hk; reflexivity); cbn in Hp.
  - inversion Hp; subst. cbn. repeat split; try reflexivity; lia.
  - inversion Hp; subst. destruct closer as [conn|channel]; cbn.
    + rewrite (Nat.eqb_sym c (rwc_id conn)).
      destruct (Nat.eqb (rwc_id conn) c); repeat split; try reflexivity; lia.
    + repeat split; try reflexivity; lia.
  - inversion Hp; subst. cbn. repeat split; try reflexivity; lia.
  - destruct (done w); [|discriminate]. inversion Hp; subst. cbn.
    repeat split; try reflexivity; lia.
  - inversion Hp; subst. cbn. repeat split; try reflexivity; lia.
  - inversion Hp; subst. cbn. rewrite errors_of_app, length_app. cbn.
    repeat split; try reflexivity; lia.
  - destruct (errc w); [discriminate|]. inversion Hp; subst. cbn.
    rewrite errors_of_app, length_app. cbn. repeat split; try reflexivity; lia.
Qed.

Lemma within_stream_handler (fwd : PortForwarder) (ctx : Context) (id : channelID)
    (conn : ReadWriteCloser) :
  within (rwc_id conn) 1 1 1 (body (StreamHandler fwd ctx id conn)).
Proof.
  unfold body, handleConnection, defer, safeClose, closeChannel. cbn.
  split; [lia|]. intros [channel [e|]]; cbn.
  - rewrite Nat.eqb_refl. split; [lia|]. intros x. cbn. split; [lia|]. intros; exact I.
  - intros _ _ _ x y. rewrite Nat.eqb_refl. split; [lia|]. intros z. cbn.
    destruct x as [e|]; cbn.
    + split; [lia|]. intros; exact I.
    + destruct (isEOF y); [destruct z as [e|]|destruct y as [e|]; [|destruct z as [e|]]];
        cbn; try exact I; (split; [lia|]; intros; exact I).
Qed.

(** [stream_inv] is kept by every step of a call of [Forward]. *)
Lemma stream_inv_step (fwd : PortForwarder) (ctx : Context) (conn : ReadWriteCloser)
    (l : label) (s s' : state) :
  phase_inv ctx (Forward fwd ctx conn) (fun id => StreamHandler fwd ctx id conn) s ->
  stream_inv (rwc_id conn) s ->
  step l s = Some s' ->
  stream_inv (rwc_id conn) s'.
Proof.
  intros Hphase Hinv Hstep. destruct s as [w m pool].
  unfold stream_inv in *. cbn [st_world st_main st_pool] in *.
  destruct l as [pd|i|]; cbn [step st_world st_main st_pool] in Hstep.
  - (* the caller *)
    destruct Hphase as [(Hp & _ & Hm) | (_ & _ & Hm & _)];
      cbn [st_world st_main st_pool] in *.
    + subst pool.
      destruct Hinv as [(_ & Hs & Hc & Ho) | (g & p & ? & ? & ? & Hp & _)];
        [|discriminate Hp].
      destruct Hm as [-> | [[id ->] | [id (-> & _ & _)]]].
      * rewrite Forward_step in Hstep. inversion Hstep; subst; clear Hstep.
        left. cbn [st_world st_pool app map]. rewrite sent_log. cbn. auto.
      * cbn in Hstep. inversion Hstep; subst; clear Hstep.
        left. cbn [st_world st_pool app map]. rewrite sent_make_chan. cbn. auto.
      * cbn in Hstep. inversion Hstep; subst; clear Hstep.
        right. exists (StreamHandler fwd ctx id conn),
                 (body (StreamHandler fwd ctx id conn)), 1, 1, 1.
        cbn [st_world st_pool app map]. rewrite sent_log, Hs. cbn [trace log closes opens].
        split; [reflexivity|]. split; [apply within_stream_handler|].
        rewrite Hc, Ho. cbn. lia.
    + assert (Hsame : exists w1 m1, s' = mkState w1 m1 pool
                                    /\ sent w1 = sent w /\ trace w1 = trace w).
      { destruct Hm as [Hr|Hr Hd|e Hr|Hr Hd]; cbn in Hstep; try discriminate.
        - destruct (errc w) as [e|].
          + destruct (pd && done w); inversion Hstep; subst; cbn;
              rewrite app_nil_r; eauto.
          + destruct (done w); [|discriminate]. inversion Hstep; subst; cbn.
            rewrite app_nil_r. eauto.
        - inversion Hstep; subst; cbn. rewrite app_nil_r. eauto. }
      destruct Hsame as (w1 & m1 & -> & Hs1 & Ht1). cbn [st_world st_pool].
      rewrite Hs1, Ht1. exact Hinv.
  - (* the handler *)
    destruct Hinv as [(Hp & _) | (g & p & sends & cl & chans & Hp & Hw & Hs & Hc & Ho)].
    + subst pool. destruct i; discriminate Hstep.
    + subst pool. destruct i as [|i]; [|destruct i; discriminate Hstep].
      cbn in Hstep. destruct p as [a| |X a k]; cbn in Hstep; [discriminate|contradiction|].
      destruct (perform false a w) as [[x w1]|] eqn:Ep; [|discriminate].
      inversion Hstep; subst; clear Hstep.
      cbn [within] in Hw.
      assert (Hk : kind_of a <> KForbidden).
      { intros K. rewrite K in Hw. exact Hw. }
      destruct (perform_effect a false w (rwc_id conn) Ep Hk) as (Hsp & Hs1 & Hc1 & Ho1).
      rewrite Hsp. cbn [st_world st_pool map app replace_nth].
      right. destruct (kind_of a) as [|id| | |] eqn:K.
      * destruct Hw as [Hpos Hw]. exists g, (k x), (pred sends), cl, chans.
        split; [reflexivity|]. split; [apply Hw|]. lia.
      * destruct (Nat.eqb id (rwc_id conn)).
        -- destruct Hw as [Hpos Hw]. exists g, (k x), sends, (pred cl), chans.
           split; [reflexivity|]. split; [apply Hw|]. lia.
        -- exists g, (k x), sends, cl, chans.
           split; [reflexivity|]. split; [apply Hw|]. lia.
      * destruct Hw as [Hpos Hw]. exists g, (k x), sends, cl, (pred chans).
        split; [reflexivity|]. split; [apply Hw|]. lia.
      * exists g, (k x), sends, cl, chans.
        split; [reflexivity|]. split; [apply Hw|]. lia.
      * contradiction.
  - (* cancellation *)
    destruct (done w); [discriminate|]. inversion Hstep; subst; clear Hstep.
    cbn [st_world st_pool]. rewrite sent_cancel. exact Hinv.
Qed.

Lemma forward_invs_exec (fwd : PortForwarder) (ctx : Context) (conn : ReadWriteCloser)
    (sched : list label) (s s' : state) :
  phase_inv ctx (Forward fwd ctx conn) (fun id => StreamHandler fwd ctx id conn) s ->
  stream_inv (rwc_id conn) s ->
  exec sched s = Some s' ->
  phase_inv ctx (Forward fwd ctx conn) (fun id => StreamHandler fwd ctx id conn) s'
  /\ stream_inv (rwc_id conn) s'.
Proof.
  revert s. induction sched as [|l sched IH]; intros s Hph Hst Hex; cbn in Hex.
  - inversion Hex; subst. split; assumption.
  - destruct (step l s) as [s1|] eqn:Hs; [|discriminate].
    apply (IH s1); [| |exact Hex].
    + exact (@phase_inv_step fwd ctx (Forward fwd ctx conn)
               (fun id => StreamHandler fwd ctx id conn)
               (Forward_step fwd ctx conn) l s s1 Hph Hs).
    + eapply stream_inv_step; eassumption.
Qed.

Lemma forward_invs (fwd : PortForwarder) (ctx : Context) (cancelled : bool)
    (conn : ReadWriteCloser) (s : state) :
  reachable (call_Forward fwd ctx cancelled conn) s ->
  phase_inv ctx (Forward fwd ctx conn) (fun id => StreamHandler fwd ctx id conn) s
  /\ stream_inv (rwc_id conn) s.
Proof.
  intros [sched Hex]. eapply forward_invs_exec; [| |exact Hex].
  - left. split; [reflexivity|]. split; [reflexivity|]. left. reflexivity.
  - left. unfold call_Forward. cbn [st_world st_pool].
    split; [reflexivity|]. split; [destruct cancelled; reflexivity|].
    split; reflexivity.
Qed.

(** X6.  In every interleaving of a call of [Forward] the supplied stream
    is closed at most once and at most one remote channel is opened. *)
Theorem Forward_closes_and_opens_at_most_once
    (fwd : PortForwarder) (ctx : Context) (cancelled : bool) (conn : ReadWriteCloser)
    (s : state) :
  reachable (call_Forward fwd ctx cancelled conn) s ->
  closes Local (rwc_id conn) (trace (st_world s)) <= 1
  /\ opens (trace (st_world s)) <= 1.
Proof.
  intros Hreach. destruct (forward_invs Hreach) as [_ Hinv].
  destruct Hinv as [(_ & _ & Hc & Ho) | (g & p & sends & cl & chans & _ & _ & _ & Hc & Ho)];
    lia.
Qed.

(** X7.  In every interleaving of a call of [Forward] at most one error is
    sent to the error channel, and the handler goroutine is never blocked at
    its send [errc <- err]: whenever it stands before the send, also after
    the caller has returned on cancellation, the step can be taken. *)
Theorem Forward_send_never_blocks
    (fwd : PortForwarder) (ctx : Context) (cancelled : bool) (conn : ReadWriteCloser)
    (s : state) :
  reachable (call_Forward fwd ctx cancelled conn) s ->
  length (sent (st_world s)) <= 1
  /\ forall i g err k,
       nth_error (st_pool s) i = Some (g, Bind (Send err) k) ->
       errc (st_world s) = None
       /\ step (RunGo i) s
          = Some (mkState (offer err (st_world s)) (st_main s)
                          (replace_nth i (g, k tt) (st_pool s))).
Proof.
  intros Hreach. destruct (forward_invs Hreach) as [Hph Hinv]. split.
  - destruct Hinv as [(_ & Hs & _) | (g & p & sends & cl & chans & _ & _ & Hs & _)].
    + rewrite Hs. cbn. lia.
    + lia.
  - intros i g err k Hn.
    destruct Hinv as [(Hp & _) | (g0 & p & sends & cl & chans & Hp & Hw & Hs & _)].
    + rewrite Hp in Hn. destruct i; discriminate Hn.
    + assert (Hnil : sent (st_world s) = []).
      { rewrite Hp in Hn. destruct i as [|i]; [|destruct i; discriminate Hn].
        cbn in Hn. inversion Hn; subst. cbn in Hw. destruct Hw as [Hpos _].
        destruct (sent (st_world s)); [reflexivity|cbn in Hs; lia]. }
      assert (He : errc (st_world s) = None).
      { destruct Hph as [(Hpe & _) | (Hslot & _)].
        - rewrite Hp in Hpe. discriminate Hpe.
        - unfold slot_ok in Hslot. rewrite Hnil in Hslot.
          destruct (recvd (st_world s)) as [|e0 [|e1 l]].
          + destruct (errc (st_world s)) as [e|]; [|reflexivity].
            destruct Hslot as [rest Hrest]. discriminate Hrest.
          + destruct Hslot as [rest Hrest]. discriminate Hrest.
          + contradiction. }
      split; [exact He|].
      destruct s as [w m pool]. cbn [st_world st_main st_pool] in *.
      cbn [step st_pool st_world st_main]. rewrite Hn. cbn. rewrite He. cbn.
      rewrite app_nil_r. reflexivity.
Qed.

(** X8.  Whatever [Forward] returns is the one error its handler sent, a
    non-nil error, or the context's error with the context done. *)
Theorem Forward_returns_handler_or_context_error
    (fwd : PortForwarder) (ctx : Context) (cancelled : bool) (conn : ReadWriteCloser)
    (s : state) (r : error) :
  reachable (call_Forward fwd ctx cancelled conn) s ->
  st_main s = Ret r ->
  (sent (st_world s) = [r] /\ r <> nil_error)
  \/ (done (st_world s) = true /\ r = cause ctx).
Proof.
  intros Hreach Hret.
  destruct (forward_invs Hreach) as [_ Hinv].
  assert (Hlen : length (sent (st_world s)) <= 1).
  { destruct Hinv as [(_ & Hs & _) | (g & p & sends & cl & chans & _ & _ & Hs & _)].
    - rewrite Hs. cbn. lia.
    - lia. }
  destruct (@phase_inv_returned fwd ctx (Forward fwd ctx conn)
              (fun id => StreamHandler fwd ctx id conn)
              (Forward_step fwd ctx conn) cancelled [] s r Hreach Hret)
    as ([_ Hn] & [(Hr & rest & Hs) | (_ & Hd & Hr)]).
  - left. rewrite Hs in Hlen. destruct rest; [|cbn in Hlen; lia].
    split; [exact Hs|]. apply Hn. rewrite Hr. left. reflexivity.
  - right. auto.
Qed.

(** ** The books of [ForwardToListener] *)

Lemma total_app (f : budget -> nat) (l1 l2 : list budget) :
  total f (l1 ++ l2) = total f l1 + total f l2.
Proof. induction l1 as [|b l1 IH]; cbn; [reflexivity|]. rewrite IH. lia. Qed.

Lemma total_replace_nth (f : budget -> nat) (i : nat) (b b' : budget) (bs : list budget) :
  nth_error bs i = Some b ->
  total f (replace_nth i b' bs) + f b = total f bs + f b'.
Proof.
  revert i. induction bs as [|b0 bs IH]; intros i Hn.
  - destruct i; discriminate Hn.
  - destruct i as [|i]; cbn in Hn.
    + inversion Hn; subst. cbn. lia.
    + specialize (IH i Hn). cbn. lia.
Qed.

Lemma length_replace_nth (T : Type) (i : nat) (x : T) (l : list T) :
  length (replace_nth i x l) = length l.
Proof.
  revert i. induction l as [|y l IH]; intros i.
  - destruct i; reflexivity.
  - destruct i; cbn; [reflexivity|]. rewrite IH. reflexivity.
Qed.

Lemma Forall2_nth_error_r (T U : Type) (R : T -> U -> Prop) (l1 : list T) (l2 : list U)
    (i : nat) (y : U) :
  Forall2 R l1 l2 -> nth_error l2 i = Some y ->
  exists x, nth_error l1 i = Some x /\ R x y.
Proof.
  intros H. revert i. induction H as [|x0 y0 l1 l2 Hxy H IH]; intros i Hn.
  - destruct i; discriminate Hn.
  - destruct i as [|i]; cbn in Hn.
    + inversion Hn; subst. exists x0. split; [reflexivity|exact Hxy].
    + apply IH. exact Hn.
Qed.

Lemma Forall2_replace_nth (T U : Type) (R : T -> U -> Prop) (l1 : list T) (l2 : list U)
    (i : nat) (x : T) (y : U) :
  Forall2 R l1 l2 -> R x y -> Forall2 R (replace_nth i x l1) (replace_nth i y l2).
Proof.
  intros H Hxy. revert i. induction H as [|x0 y0 l1 l2 H0 H IH]; intros i.
  - destruct i; constructor.
  - destruct i; cbn; constructor; auto.
Qed.

Lemma affords_acceptLoop (fwd : PortForwarder) (ctx : Context) (id : channelID) (b : budget) :
  b_open b = 0 -> b_close b = 0 -> 0 < b_send b ->
  affords true b (acceptLoop fwd ctx id).
Proof.
  intros Ho Hc Hs. unfold acceptLoop. cbn.
  intros [conn [e|]]; cbn.
  - split; [exact Hs|]. intros; exact I.
  - split; [lia|]. intros _. auto.
Qed.

Lemma affords_handler (k : error -> prog unit) (fwd : PortForwarder) (ctx : Context)
    (id : channelID) (conn : ReadWriteCloser) :
  (forall e, affords false (mkBudget 0 0 0 1) (k e)) ->
  affords false (mkBudget 0 1 1 1) (err <- handleConnection fwd ctx id conn ;; k err).
Proof.
  intros Hk. unfold handleConnection, defer, safeClose, closeChannel. cbn.
  split; [lia|]. intros [channel [e|]]; cbn.
  - split; [lia|]. intros x. apply Hk.
  - intros _ _ _ x y. split; [lia|]. intros z. apply Hk.
Qed.

Lemma affords_body (g : gname) : affords (is_loop g) (initial_budget g) (body g).
Proof.
  destruct g as [fwd ctx id|fwd ctx id conn|fwd ctx id conn]; cbn [is_loop initial_budget body].
  - apply affords_acceptLoop; cbn; lia.
  - apply affords_handler. intros [e|]; cbn; [|exact I]. split; [lia|]. intros; exact I.
  - apply affords_handler. intros [e|]; cbn; [|exact I]. split; [lia|]. intros; exact I.
Qed.

(** What one action of the accept loop or of a handler adds to the books. *)
Lemma perform_books (X : Type) (a : action X) (pd : bool) (w w' : world) (x : X) :
  perform pd a w = Some (x, w') ->
  lkind_of a <> LForbidden ->
  handlers_started (trace w')
  = handlers_started (trace w) + match lkind_of a with LGoHandler => 1 | _ => 0 end
  /\ length (listener w') + match lkind_of a with LAccept => 1 | _ => 0 end
     = length (listener w)
  /\ opens (trace w') = opens (trace w) + match lkind_of a with LOpen => 1 | _ => 0 end
  /\ local_closes (trace w')
     = local_closes (trace w) + match lkind_of a with LCloseLocal => 1 | _ => 0 end
  /\ length (sent w') = length (sent w) + match lkind_of a with LSend => 1 | _ => 0 end
  /\ match lkind_of a with
     | LGoHandler =>
         exists g, spawned a = [g] /\ is_loop g = false
                   /\ initial_budget g = mkBudget 0 1 1 1
     | _ => spawned a = []
     end.
Proof.
  intros Hp Hk. unfold sent.
  destruct a; cbn in Hk; try (exfalso; apply Hk; reflexivity); cbn in Hp.
  - inversion Hp; subst. cbn. repeat split; try reflexivity; lia.
  - inversion Hp; subst. destruct closer as [conn|channel]; cbn;
      repeat split; try reflexivity; lia.
  - destruct (listener w) as [|r l] eqn:El; [discriminate|].
    inversion Hp; subst. cbn. rewrite El. cbn. repeat split; try reflexivity; lia.
  - destruct g as [fwd ctx id|fwd ctx id conn|fwd ctx id conn];
      cbn in Hk; try (exfalso; apply Hk; reflexivity).
    inversion Hp; subst. cbn. repeat split; try reflexivity; try lia.
    eexists. repeat split; reflexivity.
  - inversion Hp; subst. cbn. repeat split; try reflexivity; lia.
  - destruct (done w); [|discriminate]. inversion Hp; subst. cbn.
    repeat split; try reflexivity; lia.
  - inversion Hp; subst. cbn. repeat split; try reflexivity; lia.
  - inversion Hp; subst. cbn. rewrite errors_of_app, length_app. cbn.
    repeat split; try reflexivity; lia.
  - destruct (errc w); [discriminate|]. inversion Hp; subst. cbn.
    rewrite errors_of_app, length_app. cbn. repeat split; try reflexivity; lia.
Qed.

Ltac books i b' bs Hb :=
  pose proof (total_replace_nth b_start i b' bs Hb);
  pose proof (total_replace_nth b_open i b' bs Hb);
  pose proof (total_replace_nth b_close i b' bs Hb);
  pose proof (total_replace_nth b_send i b' bs Hb);
  cbn [b_start b_open b_close b_send] in *.

(** [listener_inv] is kept by every step of a call of [ForwardToListener]. *)
Lemma listener_inv_step (fwd : PortForwarder) (ctx : Context) (n : nat)
    (l : label) (s s' : state) :
  phase_inv ctx (ForwardToListener fwd ctx) (AcceptLoop fwd ctx) s ->
  listener_inv n s ->
  step l s = Some s' ->
  listener_inv n s'.
Proof.
  intros Hphase (bs & HF & Hst & Hop & Hcl & Hsd & Hlen) Hstep.
  destruct s as [w m pool]. unfold listener_inv.
  cbn [st_world st_main st_pool] in *.
  destruct l as [pd|i|]; cbn [step st_world st_main st_pool] in Hstep.
  - (* the caller *)
    destruct Hphase as [(Hp & _ & Hm) | (_ & _ & Hm & _)];
      cbn [st_world st_main st_pool] in *.
    + subst pool. inversion HF; subst. cbn [total length] in *.
      destruct Hm as [-> | [[id ->] | [id (-> & _ & Hs0)]]].
      * rewrite ForwardToListener_step in Hstep. inversion Hstep; subst; clear Hstep.
        exists []. cbn [st_world st_pool app map total length].
        rewrite sent_log. cbn [trace log listener handlers_started opens local_closes].
        split; [constructor|]. lia.
      * cbn in Hstep. inversion Hstep; subst; clear Hstep.
        exists []. cbn [st_world st_pool app map total length].
        rewrite sent_make_chan. cbn [trace make_chan listener length].
        split; [constructor|]. lia.
      * cbn in Hstep. inversion Hstep; subst; clear Hstep.
        exists [initial_budget (AcceptLoop fwd ctx id)].
        cbn [st_world st_pool app map total length initial_budget b_start b_open b_close b_send].
        rewrite sent_log, Hs0.
        cbn [trace log listener handlers_started opens local_closes length].
        split.
        -- constructor; [|constructor].
           exact (affords_body (AcceptLoop fwd ctx id)).
        -- lia.
    + assert (Hsame : exists w1 m1, s' = mkState w1 m1 pool
                                    /\ sent w1 = sent w /\ trace w1 = trace w
                                    /\ listener w1 = listener w).
      { destruct Hm as [Hr|Hr Hd|e Hr|Hr Hd]; cbn in Hstep; try discriminate.
        - destruct (errc w) as [e|].
          + destruct (pd && done w); inversion Hstep; subst; cbn;
              rewrite app_nil_r; eexists; eexists; repeat split; reflexivity.
          + destruct (done w); [|discriminate]. inversion Hstep; subst; cbn.
            rewrite app_nil_r. eexists; eexists; repeat split; reflexivity.
        - inversion Hstep; subst; cbn. rewrite app_nil_r.
          eexists; eexists; repeat split; reflexivity. }
      destruct Hsame as (w1 & m1 & -> & Hs1 & Ht1 & Hl1). cbn [st_world st_pool].
      rewrite Hs1, Ht1, Hl1. exists bs. repeat split; assumption.
  - (* a started goroutine *)
    destruct (nth_error pool i) as [[g p]|] eqn:En; [|discriminate].
    destruct (Forall2_nth_error_r i HF En) as (b & Hb & Hent).
    unfold entry_ok in Hent. cbn [fst snd] in Hent.
    destruct p as [a| |X a k]; cbn in Hstep; [discriminate| |].
    + (* back to the head of the loop *)
      inversion Hstep; subst; clear Hstep.
      cbn in Hent. destruct Hent as (Hloop & Ho & Hc & Hs).
      exists (replace_nth i b bs). books i b bs Hb.
      cbn [st_world st_pool map]. rewrite app_nil_r, length_replace_nth.
      split.
      * apply Forall2_replace_nth; [exact HF|].
        unfold entry_ok. cbn [fst snd]. rewrite Hloop.
        destruct g as [f c j|f c j cn|f c j cn]; try discriminate Hloop.
        apply affords_acceptLoop; assumption.
      * lia.
    + destruct (perform false a w) as [[x w1]|] eqn:Ep; [|discriminate].
      inversion Hstep; subst; clear Hstep.
      cbn [affords] in Hent.
      assert (Hk : lkind_of a <> LForbidden).
      { intros K. rewrite K in Hent. exact Hent. }
      destruct (perform_books a false w Ep Hk) as (Hh1 & Hl1 & Ho1 & Hc1 & Hs1 & Hsp).
      cbn [st_world st_pool].
      destruct (lkind_of a) eqn:K.
      * (* Accept *)
        rewrite Hsp. cbn [map]. rewrite app_nil_r, length_replace_nth.
        exists (replace_nth i (mkBudget (S (b_start b)) (b_open b) (b_close b) (b_send b)) bs).
        books i (mkBudget (S (b_start b)) (b_open b) (b_close b) (b_send b)) bs Hb.
        split; [apply Forall2_replace_nth; [exact HF|apply Hent]|]. lia.
      * (* go handler *)
        destruct Hsp as (g' & -> & Hloop' & Hb').
        destruct Hent as [Hpos Hent].
        exists (replace_nth i (mkBudget (pred (b_start b)) (b_open b) (b_close b) (b_send b)) bs
                ++ [initial_budget g']).
        books i (mkBudget (pred (b_start b)) (b_open b) (b_close b) (b_send b)) bs Hb.
        cbn [map]. rewrite !total_app, length_app, length_replace_nth. rewrite Hb'.
        cbn [total length b_start b_open b_close b_send].
        split.
        -- apply Forall2_app; [apply Forall2_replace_nth; [exact HF|apply Hent]|].
           constructor; [|constructor]. unfold entry_ok, start. cbn [fst snd].
           rewrite <- Hb'. apply affords_body.
        -- lia.
      * (* open *)
        rewrite Hsp. cbn [map]. rewrite app_nil_r, length_replace_nth.
        destruct Hent as [Hpos Hent].
        exists (replace_nth i (mkBudget (b_start b) (pred (b_open b)) (b_close b) (b_send b)) bs).
        books i (mkBudget (b_start b) (pred (b_open b)) (b_close b) (b_send b)) bs Hb.
        split; [apply Forall2_replace_nth; [exact HF|apply Hent]|]. lia.
      * (* close of a local connection *)
        rewrite Hsp. cbn [map]. rewrite app_nil_r, length_replace_nth.
        destruct Hent as [Hpos Hent].
        exists (replace_nth i (mkBudget (b_start b) (b_open b) (pred (b_close b)) (b_send b)) bs).
        books i (mkBudget (b_start b) (b_open b) (pred (b_close b)) (b_send b)) bs Hb.
        split; [apply Forall2_replace_nth; [exact HF|apply Hent]|]. lia.
      * (* send *)
        rewrite Hsp. cbn [map]. rewrite app_nil_r, length_replace_nth.
        destruct Hent as [Hpos Hent].
        exists (replace_nth i (mkBudget (b_start b) (b_open b) (b_close b) (pred (b_send b))) bs).
        books i (mkBudget (b_start b) (b_open b) (b_close b) (pred (b_send b))) bs Hb.
        split; [apply Forall2_replace_nth; [exact HF|apply Hent]|]. lia.
      * (* anything else *)
        rewrite Hsp. cbn [map]. rewrite app_nil_r, length_replace_nth.
        exists (replace_nth i b bs). books i b bs Hb.
        split; [apply Forall2_replace_nth; [exact HF|apply Hent]|]. lia.
      * contradiction.
  - (* cancellation *)
    destruct (done w); [discriminate|]. inversion Hstep; subst; clear Hstep.
    cbn [st_world st_pool]. rewrite sent_cancel. exists bs. repeat split; assumption.
Qed.

Lemma listener_invs_exec (fwd : PortForwarder) (ctx : Context) (n : nat)
    (sched : list label) (s s' : state) :
  phase_inv ctx (ForwardToListener fwd ctx) (AcceptLoop fwd ctx) s ->
  listener_inv n s ->
  exec sched s = Some s' ->
  listener_inv n s'.
Proof.
  revert s. induction sched as [|l sched IH]; intros s Hph Hinv Hex; cbn in Hex.
  - inversion Hex; subst. exact Hinv.
  - destruct (step l s) as [s1|] eqn:Hs; [|discriminate].
    apply (IH s1); [| |exact Hex].
    + exact (@phase_inv_step fwd ctx (ForwardToListener fwd ctx) (AcceptLoop fwd ctx)
               (ForwardToListener_step fwd ctx) l s s1 Hph Hs).
    + eapply listener_inv_step; eassumption.
Qed.

(** X9.  In every interleaving of a call of [ForwardToListener]: no more
    handlers are started than [Accept] has returned results; no more remote
    channels are opened and no more local connections closed than handlers
    were started; and no more errors are sent to the error channel than one
    per handler and one for the accept loop. *)
Theorem ForwardToListener_books
    (fwd : PortForwarder) (ctx : Context) (cancelled : bool)
    (listen : list (ReadWriteCloser * error)) (s : state) :
  reachable (call_ForwardToListener fwd ctx cancelled listen) s ->
  handlers_started (trace (st_world s)) + length (listener (st_world s)) <= length listen
  /\ opens (trace (st_world s)) <= handlers_started (trace (st_world s))
  /\ local_closes (trace (st_world s)) <= handlers_started (trace (st_world s))
  /\ length (sent (st_world s)) <= S (handlers_started (trace (st_world s))).
Proof.
  intros [sched Hex].
  assert (Hinv : listener_inv (length listen) s).
  { eapply listener_invs_exec; [| |exact Hex].
    - left. split; [reflexivity|]. split; [reflexivity|]. left. reflexivity.
    - exists []. unfold call_ForwardToListener. cbn [st_world st_pool total length].
      split; [constructor|].
      assert (Hs : sent (new_world cancelled listen) = []) by (destruct cancelled; reflexivity).
      rewrite Hs. cbn. lia. }
  destruct Hinv as (bs & _ & Hst & Hop & Hcl & Hsd & Hlen). lia.
Qed.

(** ** The further theorems at work on the fixtures *)

Lemma handleConnection_never_reports_close_errors_witness :
  conforming std_ctx
  /\ runs (handleConnection web_fwd std_ctx 7 web_conn, fresh)
          (Ret (Some context_Canceled), web_exit_world)
  /\ Some context_Canceled <> nil_error
  /\ done web_exit_world = true
  /\ Some context_Canceled = cause std_ctx.
Proof.
  assert (Hc : conforming std_ctx).
  { unfold conforming. cbn. discriminate. }
  assert (Hrun : runs (handleConnection web_fwd std_ctx 7 web_conn, fresh)
                      (Ret (Some context_Canceled), web_exit_world)).
  { exact (web_handler_exits std_ctx). }
  split; [exact Hc|]. split; [exact Hrun|].
  exact (handleConnection_never_reports_close_errors Hc Hrun).
Defined.

Lemma handleConnection_call_order_witness :
  runs (handleConnection closed_fwd std_ctx 7 web_conn, fresh)
       (Ret (open_failure (errorString "session closed")), closed_exit_world)
  /\ (trace closed_exit_world = EvClose Local 1 :: EvOpenChannel 7 :: trace fresh
      /\ copies (trace closed_exit_world) = copies (trace fresh))
  /\ opens (trace closed_exit_world) = S (opens (trace fresh))
  /\ shares (trace closed_exit_world) = shares (trace fresh).
Proof.
  assert (Hrun : runs (handleConnection closed_fwd std_ctx 7 web_conn, fresh)
                      (Ret (open_failure (errorString "session closed")), closed_exit_world)).
  { apply run_thread_runs with (fuel := 8) (gs := []). reflexivity. }
  split; [exact Hrun|].
  exact (handleConnection_call_order Hrun).
Defined.

Lemma acceptLoop_keeps_accepting_witness :
  listener (new_world false two_conn_listener)
  = map (fun c => (c, nil_error)) [web_conn; web_conn]
  /\ 3 * length [web_conn; web_conn] <= 7
  /\ exists w',
       run_thread 7 (body (AcceptLoop web_fwd std_ctx 7)) (body (AcceptLoop web_fwd std_ctx 7))
                  (new_world false two_conn_listener)
       = (body (AcceptLoop web_fwd std_ctx 7), w',
          map (ListenerHandler web_fwd std_ctx 7) [web_conn; web_conn])
       /\ listener w' = []
       /\ fired w' = fired (new_world false two_conn_listener)
       /\ errc w' = errc (new_world false two_conn_listener)
       /\ handlers_started (trace w')
          = length [web_conn; web_conn]
            + handlers_started (trace (new_world false two_conn_listener)).
Proof.
  assert (Hl : listener (new_world false two_conn_listener)
               = map (fun c => (c, nil_error)) [web_conn; web_conn]).
  { reflexivity. }
  assert (Hfuel : 3 * length [web_conn; web_conn] <= 7).
  { cbn. lia. }
  split; [exact Hl|]. split; [exact Hfuel|].
  exact (@acceptLoop_keeps_accepting web_fwd std_ctx 7 [web_conn; web_conn]
           (new_world false two_conn_listener) 7 Hl Hfuel).
Defined.

Lemma port_announced_once_witness :
  reachable (listener_call false) (run_schedule accept_fails (listener_call false))
  /\ shares (trace (st_world (run_schedule accept_fails (listener_call false)))) = 1
  /\ shares (trace (st_world (run_schedule accept_fails (listener_call false)))) <= 1.
Proof.
  assert (Hr : reachable (listener_call false)
                 (run_schedule accept_fails (listener_call false))).
  { exists accept_fails. reflexivity. }
  split; [exact Hr|]. split; [reflexivity|].
  exact (proj1 (port_announced_once (conn := web_conn) (or_introl Hr))).
Defined.

Lemma Forward_closes_and_opens_at_most_once_witness :
  reachable web_stream_call (run_schedule handler_sends_caller_receives web_stream_call)
  /\ closes Local 1
       (trace (st_world (run_schedule handler_sends_caller_receives web_stream_call))) = 1
  /\ opens (trace (st_world (run_schedule handler_sends_caller_receives web_stream_call))) = 1
  /\ closes Local (rwc_id web_conn)
       (trace (st_world (run_schedule handler_sends_caller_receives web_stream_call))) <= 1
  /\ opens (trace (st_world (run_schedule handler_sends_caller_receives web_stream_call))) <= 1.
Proof.
  assert (Hr : reachable web_stream_call
                 (run_schedule handler_sends_caller_receives web_stream_call)).
  { exists handler_sends_caller_receives. vm_compute. reflexivity. }
  split; [exact Hr|]. split; [vm_compute; reflexivity|]. split; [vm_compute; reflexivity|].
  exact (Forward_closes_and_opens_at_most_once Hr).
Defined.

Lemma Forward_send_never_blocks_witness :
  reachable web_stream_call (run_schedule handler_before_send web_stream_call)
  /\ (exists g k,
        nth_error (st_pool (run_schedule handler_before_send web_stream_call)) 0
        = Some (g, Bind (Send (Some context_Canceled)) k))
  /\ done (st_world (run_schedule handler_before_send web_stream_call)) = true
  /\ length (sent (st_world (run_schedule handler_before_send web_stream_call))) <= 1
  /\ errc (st_world (run_schedule handler_before_send web_stream_call)) = None.
Proof.
  assert (Hr : reachable web_stream_call (run_schedule handler_before_send web_stream_call)).
  { exists handler_before_send. vm_compute. reflexivity. }
  split; [exact Hr|]. split; [eexists; eexists; vm_compute; reflexivity|].
  split; [vm_compute; reflexivity|].
  split.
  - exact (proj1 (Forward_send_never_blocks Hr)).
  - exact (proj1 (proj2 (Forward_send_never_blocks Hr) 0
                    (StreamHandler web_fwd std_ctx 7 web_conn)
                    (Some context_Canceled) (fun x => Ret x) eq_refl)).
Defined.

Lemma Forward_returns_handler_or_context_error_witness :
  reachable web_stream_call (run_schedule handler_sends_caller_receives web_stream_call)
  /\ st_main (run_schedule handler_sends_caller_receives web_stream_call)
     = Ret (Some context_Canceled)
  /\ ((sent (st_world (run_schedule handler_sends_caller_receives web_stream_call))
       = [Some context_Canceled]
       /\ Some context_Canceled <> nil_error)
      \/ (done (st_world (run_schedule handler_sends_caller_receives web_stream_call)) = true
          /\ Some context_Canceled = cause std_ctx)).
Proof.
  assert (Hr : reachable web_stream_call
                 (run_schedule handler_sends_caller_receives web_stream_call)).
  { exists handler_sends_caller_receives. vm_compute. reflexivity. }
  assert (Hm : st_main (run_schedule handler_sends_caller_receives web_stream_call)
               = Ret (Some context_Canceled)).
  { vm_compute. reflexivity. }
  split; [exact Hr|]. split; [exact Hm|].
  exact (Forward_returns_handler_or_context_error Hr Hm).
Defined.

Lemma ForwardToListener_books_witness :
  reachable one_conn_call (run_schedule one_conn_served one_conn_call)
  /\ handlers_started (trace (st_world (run_schedule one_conn_served one_conn_call))) = 1
  /\ opens (trace (st_world (run_schedule one_conn_served one_conn_call))) = 1
  /\ sent (st_world (run_schedule one_conn_served one_conn_call)) = [Some listener_closed]
  /\ handlers_started (trace (st_world (run_schedule one_conn_served one_conn_call)))
     + length (listener (st_world (run_schedule one_conn_served one_conn_call)))
     <= length one_conn_listener
  /\ opens (trace (st_world (run_schedule one_conn_served one_conn_call)))
     <= handlers_started (trace (st_world (run_schedule one_conn_served one_conn_call)))
  /\ local_closes (trace (st_world (run_schedule one_conn_served one_conn_call)))
     <= handlers_started (trace (st_world (run_schedule one_conn_served one_conn_call)))
  /\ length (sent (st_world (run_schedule one_conn_served one_conn_call)))
     <= S (handlers_started (trace (st_world (run_schedule one_conn_served one_conn_call)))).
Proof.
  assert (Hr : reachable one_conn_call (run_schedule one_conn_served one_conn_call)).
  { exists one_conn_served. vm_compute. reflexivity. }
  split; [exact Hr|]. split; [vm_compute; reflexivity|]. split; [vm_compute; reflexivity|].
  split; [vm_compute; reflexivity|].
  exact (ForwardToListener_books Hr).
Defined.

(** ** Delivery attempts never wait *)

Lemma try_sends_only_bind (A B : Type) (p : prog A) (f : A -> prog B) :
  try_sends_only p -> (forall a, try_sends_only (f a)) -> try_sends_only (bind p f).
Proof.
  induction p as [a| |X a k IH]; cbn; intros Hp Hf.
  - apply Hf.
  - exact I.
  - destruct Hp as (Ha & Hg & Hk). split; [exact Ha|]. split; [exact Hg|].
    intros x. apply IH; [apply Hk|exact Hf].
Qed.

Lemma try_sends_only_handleConnection (fwd : PortForwarder) (ctx : Context)
    (id : channelID) (conn : ReadWriteCloser) :
  try_sends_only (handleConnection fwd ctx id conn).
Proof.
  unfold handleConnection, defer, safeClose, closeChannel. cbn.
  split; [reflexivity|]. split; [reflexivity|]. intros [channel [e|]]; cbn;
    repeat (split; [reflexivity|]; split; [reflexivity|]; intros); exact I.
Qed.

Lemma try_sends_only_body (g : gname) :
  listener_goroutine g = true -> try_sends_only (body g).
Proof.
  destruct g as [fwd ctx id|fwd ctx id conn|fwd ctx id conn]; intros Hg;
    [| |discriminate Hg]; unfold body.
  - unfold acceptLoop. cbn. split; [reflexivity|]. split; [reflexivity|].
    intros [conn [e|]]; cbn; (split; [reflexivity|]; split; [reflexivity|]; intros; exact I).
  - apply try_sends_only_bind; [apply try_sends_only_handleConnection|].
    intros [e|]; cbn; [|exact I]. split; [reflexivity|]. split; [reflexivity|]. intros; exact I.
Qed.

Lemma try_sends_only_ForwardToListener (fwd : PortForwarder) (ctx : Context) :
  try_sends_only (ForwardToListener fwd ctx).
Proof.
  unfold ForwardToListener, shareRemotePort, awaitError. cbn.
  split; [reflexivity|]. split; [reflexivity|]. intros [id [e|]]; cbn;
    (split; [reflexivity|]; split; [reflexivity|]; intros _;
     split; [reflexivity|]; split; [reflexivity|]; intros _;
     split; [reflexivity|]; split; [reflexivity|]; intros [r|]; cbn; [exact I|];
     split; [reflexivity|]; split; [reflexivity|]; intros; exact I).
Qed.

Lemma Forall_try_started (X : Type) (a : action X) :
  starts_listener_goroutines a = true ->
  Forall (fun gp : gname * prog unit =>
            listener_goroutine (fst gp) = true /\ try_sends_only (snd gp))
         (map start (spawned a)).
Proof.
  intros Ha. destruct a; cbn; try constructor; [|constructor].
  cbn in Ha. split; [exact Ha|]. apply try_sends_only_body. exact Ha.
Qed.

Lemma try_inv_step (l : label) (s s' : state) :
  try_inv s -> step l s = Some s' -> try_inv s'.
Proof.
  intros [Hm Hp] Hstep. destruct s as [w m pool]. unfold try_inv.
  cbn [st_world st_main st_pool] in *.
  destruct l as [pd|i|]; cbn [step st_world st_main st_pool] in Hstep.
  - destruct m as [r| |X a k]; cbn in Hstep.
    + discriminate.
    + inversion Hstep; subst. cbn. rewrite app_nil_r. split; [exact I|exact Hp].
    + destruct (perform pd a w) as [[x w1]|]; [|discriminate].
      inversion Hstep; subst. cbn [st_main st_pool]. destruct Hm as (_ & Hg & Hk).
      split; [apply Hk|]. apply Forall_app. split; [exact Hp|].
      apply Forall_try_started. exact Hg.
  - destruct (nth_error pool i) as [[g p]|] eqn:En; [|discriminate].
    assert (Hgp : listener_goroutine g = true /\ try_sends_only p).
    { apply nth_error_In in En. rewrite Forall_forall in Hp. apply (Hp (g, p)). exact En. }
    destruct Hgp as [Hg Htp].
    destruct p as [r| |X a k]; cbn in Hstep.
    + discriminate.
    + inversion Hstep; subst. cbn [st_main st_pool map]. rewrite app_nil_r.
      split; [exact Hm|]. apply Forall_replace_nth; [|exact Hp].
      split; [exact Hg|]. apply try_sends_only_body. exact Hg.
    + destruct (perform false a w) as [[x w1]|]; [|discriminate].
      inversion Hstep; subst. cbn [st_main st_pool]. destruct Htp as (_ & Hgo & Hk).
      split; [exact Hm|]. apply Forall_app. split.
      * apply Forall_replace_nth; [|exact Hp]. split; [exact Hg|apply Hk].
      * apply Forall_try_started. exact Hgo.
  - destruct (done w); [discriminate|]. inversion Hstep; subst.
    split; [exact Hm|exact Hp].
Qed.

Lemma try_inv_reachable (fwd : PortForwarder) (ctx : Context) (cancelled : bool)
    (listen : list (ReadWriteCloser * error)) (s : state) :
  reachable (call_ForwardToListener fwd ctx cancelled listen) s -> try_inv s.
Proof.
  intros [sched Hex].
  assert (H0 : try_inv (call_ForwardToListener fwd ctx cancelled listen)).
  { split; [apply try_sends_only_ForwardToListener|constructor]. }
  revert H0 Hex. generalize (call_ForwardToListener fwd ctx cancelled listen).
  induction sched as [|l sched IH]; intros s0 H0 Hex; cbn in Hex.
  - inversion Hex; subst. exact H0.
  - destruct (step l s0) as [s1|] eqn:Hs; [|discriminate].
    apply (IH s1); [|exact Hex]. eapply try_inv_step; eassumption.
Qed.

Lemma nth_error_replace_nth (T : Type) (i : nat) (x y : T) (l : list T) :
  nth_error l i = Some y -> nth_error (replace_nth i x l) i = Some x.
Proof.
  revert i. induction l as [|z l IH]; intros i Hn.
  - destruct i; discriminate Hn.
  - destruct i as [|i]; cbn in *; [reflexivity|]. apply IH. exact Hn.
Qed.

(** C7.  Within one call of [ForwardToListener], under every interleaving:
    the caller takes at most one error out of the channel, and it is the
    first error any handler or the accept loop sent.  Whenever a started
    goroutine (the accept loop or a handler) stands before a send on the
    error channel, that send is [sendError]'s non-blocking one and its step
    can be taken at once, whatever the buffer holds: the goroutine moves
    on, what the caller has received stays as it is, and a buffer that is
    occupied keeps its error, the new one being dropped. *)
Theorem delivery_attempts_first_wins_never_block
    (fwd : PortForwarder) (ctx : Context) (cancelled : bool)
    (listen : list (ReadWriteCloser * error)) (s : state) :
  reachable (call_ForwardToListener fwd ctx cancelled listen) s ->
  (recvd (st_world s) = []
   \/ exists e rest, recvd (st_world s) = [e] /\ sent (st_world s) = e :: rest)
  /\ forall i g (X : Type) (a : action X) (k : X -> prog unit),
       nth_error (st_pool s) i = Some (g, Bind a k) ->
       on_errc a = true ->
       blocking_send a = false
       /\ exists err x s',
            step (RunGo i) s = Some s'
            /\ nth_error (st_pool s') i = Some (g, k x)
            /\ st_main s' = st_main s
            /\ recvd (st_world s') = recvd (st_world s)
            /\ sent (st_world s') = sent (st_world s) ++ [err]
            /\ (forall e, errc (st_world s) = Some e -> errc (st_world s') = Some e)
            /\ (errc (st_world s) = None -> errc (st_world s') = Some err).
Proof.
  intros Hreach. split.
  - exact (@phase_inv_received fwd ctx (ForwardToListener fwd ctx) (AcceptLoop fwd ctx)
             (ForwardToListener_step fwd ctx) cancelled listen s Hreach).
  - intros i g X a k Hn Herrc.
    destruct (try_inv_reachable Hreach) as [_ Hp].
    assert (Hb : blocking_send a = false).
    { pose proof Hn as Hin. apply nth_error_In in Hin. rewrite Forall_forall in Hp.
      destruct (Hp (g, Bind a k) Hin) as [_ Ht]. cbn in Ht. apply Ht. }
    split; [exact Hb|].
    destruct s as [w m pool]. cbn [st_world st_main st_pool] in *.
    destruct a; try discriminate Herrc; try discriminate Hb.
    exists err, tt.
    eexists. cbn [step st_world st_main st_pool]. rewrite Hn. cbn.
    split; [reflexivity|]. cbn [st_world st_main st_pool]. rewrite app_nil_r.
    split; [eapply nth_error_replace_nth; exact Hn|].
    split; [reflexivity|]. split; [reflexivity|]. split; [apply sent_offer|].
    split.
    + intros e He. cbn. rewrite He. reflexivity.
    + intros He. cbn. rewrite He. reflexivity.
Qed.

(** C7 at work: the handler's error is in the buffer when the accept loop
    reaches its own [sendError]; the attempt is taken at once, is dropped,
    and the buffer still holds the handler's error. *)
Lemma delivery_attempts_first_wins_never_block_witness :
  reachable crowded_call (run_schedule second_attempt_pending crowded_call)
  /\ errc (st_world (run_schedule second_attempt_pending crowded_call))
     = Some (open_failure (errorString "session closed"))
  /\ nth_error (st_pool (run_schedule second_attempt_pending crowded_call)) 0
     = Some (AcceptLoop closed_fwd std_ctx 7,
             Bind (TrySend (Some listener_closed)) (fun _ => Ret tt))
  /\ exists err x s',
       step (RunGo 0) (run_schedule second_attempt_pending crowded_call) = Some s'
       /\ nth_error (st_pool s') 0 = Some (AcceptLoop closed_fwd std_ctx 7, (fun _ : unit => Ret tt) x)
       /\ st_main s' = st_main (run_schedule second_attempt_pending crowded_call)
       /\ recvd (st_world s') = recvd (st_world (run_schedule second_attempt_pending crowded_call))
       /\ sent (st_world s')
          = sent (st_world (run_schedule second_attempt_pending crowded_call)) ++ [err]
       /\ (forall e,
             errc (st_world (run_schedule second_attempt_pending crowded_call)) = Some e ->
             errc (st_world s') = Some e)
       /\ (errc (st_world (run_schedule second_attempt_pending crowded_call)) = None ->
           errc (st_world s') = Some err).
Proof.
  assert (Hr : reachable crowded_call (run_schedule second_attempt_pending crowded_call)).
  { exists second_attempt_pending. vm_compute. reflexivity. }
  assert (Hn : nth_error (st_pool (run_schedule second_attempt_pending crowded_call)) 0
               = Some (AcceptLoop closed_fwd std_ctx 7,
                       Bind (TrySend (Some listener_closed)) (fun _ => Ret tt))).
  { vm_compute. reflexivity. }
  split; [exact Hr|]. split; [vm_compute; reflexivity|]. split; [exact Hn|].
  exact (proj2 (proj2 (delivery_attempts_first_wins_never_block Hr)
                  0 (AcceptLoop closed_fwd std_ctx 7) unit
                  (TrySend (Some listener_closed)) (fun _ => Ret tt) Hn eq_refl)).
Defined.

(** ** What a started handler does *)

(** A run of [p] followed by [f] is a run of [p] and then a run of [f] on
    its result. *)
Lemma runs_bind_inv (A B : Type) (f : A -> prog B) (r : B) (w' : world) :
  forall (c : prog B * world),
    runs c (Ret r, w') ->
    forall (p : prog A) (w : world),
      c = (bind p f, w) ->
      exists a w1, runs (p, w) (Ret a, w1) /\ runs (f a, w1) (Ret r, w').
Proof.
  intros c H. remember (Ret r, w') as c' eqn:Ec'.
  induction H as [c|p0 w0 p1 w1 gs c Hs H IH|p0 w0 c Hd H IH]; intros p w Ec.
  - subst c. destruct p as [a| |X a k]; cbn in Ec.
    + inversion Ec as [[Hf Hw]].
      exists a, w. split; [apply runs_refl|]. rewrite <- Hf. apply runs_refl.
    + discriminate Ec.
    + discriminate Ec.
  - inversion Ec; subst p0 w0; clear Ec.
    destruct p as [a| |X a k]; cbn in Hs.
    + exists a, w. split; [apply runs_refl|]. eapply runs_step; eassumption.
    + inversion Hs; subst.
      destruct (IH eq_refl Continue w1 eq_refl) as (a & w2 & H1 & H2).
      exists a, w2. split; [|exact H2].
      eapply runs_step; [reflexivity|exact H1].
    + destruct (perform false a w) as [[x w2]|] eqn:Ep; [|discriminate].
      inversion Hs; subst.
      destruct (IH eq_refl (k x) w1 eq_refl) as (a0 & w3 & H1 & H2).
      exists a0, w3. split; [|exact H2].
      eapply runs_step; [cbn; rewrite Ep; reflexivity|exact H1].
  - inversion Ec; subst p0 w0; clear Ec.
    destruct (IH Ec' p (cancel w) eq_refl) as (a & w2 & H1 & H2).
    exists a, w2. split; [|exact H2]. apply runs_cancel; assumption.
Qed.

Lemma sendError_runs (err : error) (w w' : world) :
  runs (sendError err, w) (Ret tt, w') ->
  trace w' = trace w /\ sent w' = sent w ++ [err].
Proof.
  intros H. unfold sendError, call in H.
  apply runs_Bind_inv in H. destruct H as (w1 & x & w2 & Hw1 & Hp & H).
  cbn in Hp. inversion Hp; subst x w2; clear Hp.
  apply runs_inv in H. destruct H as [H | [(p1 & w3 & gs & Hs & _) | [Hd H]]].
  - inversion H; subst. destruct Hw1 as [-> | [_ ->]].
    + split; [reflexivity|apply sent_offer].
    + split; [reflexivity|]. rewrite sent_offer, sent_cancel. reflexivity.
  - discriminate Hs.
  - apply runs_inv in H. destruct H as [H | [(p1 & w3 & gs & Hs & _) | [Hd' _]]].
    + inversion H; subst. rewrite sent_cancel. destruct Hw1 as [-> | [_ ->]].
      * split; [reflexivity|apply sent_offer].
      * split; [reflexivity|]. rewrite sent_offer, sent_cancel. reflexivity.
    + discriminate Hs.
    + discriminate Hd'.
Qed.

Lemma runs_Ret_sent (A : Type) (a r : A) (w w' : world) :
  runs (Ret a, w) (Ret r, w') -> sent w' = sent w.
Proof.
  intros H.
  apply runs_inv in H. destruct H as [H | [(p1 & w1 & gs & Hs & _) | [Hd H]]].
  - inversion H; subst. reflexivity.
  - discriminate Hs.
  - apply runs_inv in H. destruct H as [H | [(p1 & w1 & gs & Hs & _) | [Hd' _]]].
    + inversion H; subst. apply sent_cancel.
    + discriminate Hs.
    + discriminate Hd'.
Qed.

Lemma runs_bind (A B : Type) (f : A -> prog B) (a : A) (w1 : world) (c : prog B * world) :
  forall (c0 : prog A * world),
    runs c0 (Ret a, w1) ->
    runs (f a, w1) c ->
    runs (bind (fst c0) f, snd c0) c.
Proof.
  intros c0 H. remember (Ret a, w1) as c1 eqn:E1.
  induction H as [c0|p0 w0 p1 w2 gs c1 Hs H IH|p0 w0 c1 Hd H IH]; intros Hf.
  - subst c0. cbn. exact Hf.
  - cbn [fst snd]. destruct p0 as [x| |X x k]; cbn in Hs.
    + discriminate.
    + inversion Hs; subst. eapply runs_step; [reflexivity|]. first [exact (IH E1 Hf) | exact (IH eq_refl Hf)].
    + destruct (perform false x w0) as [[y w3]|] eqn:Ep; [|discriminate].
      inversion Hs; subst. eapply runs_step; [cbn; rewrite Ep; reflexivity|].
      first [exact (IH E1 Hf) | exact (IH eq_refl Hf)].
  - cbn [fst snd]. apply runs_cancel; [exact Hd|]. first [exact (IH E1 Hf) | exact (IH eq_refl Hf)].
Qed.

(** C8.  On a listener that yields the connections [conns] and then an
    error, the accepting goroutine starts one goroutine for each of [conns],
    in order, sends the error of the first failing [Accept] with
    [sendError] and returns, without accepting again.  The goroutine it
    starts for a connection [c] is that connection's handler: whenever it
    runs to its end it has run [handleConnection] on [c] with the channel
    identifier of the call, so it has opened one remote channel and closed
    [c] exactly once, and it has then sent the handler's result with
    [sendError] if that was non-nil; and from every world it can run to its
    end. *)
Theorem acceptLoop_dispatches_until_first_error
    (fwd : PortForwarder) (ctx : Context) (id : channelID)
    (conns : list ReadWriteCloser) (bad : ReadWriteCloser) (e : goerr)
    (rest : list (ReadWriteCloser * error)) (w : world) (fuel : nat) :
  listener w = map (fun c => (c, nil_error)) conns ++ (bad, Some e) :: rest ->
  3 * length conns + 2 <= fuel ->
  (exists w',
     run_thread fuel (body (AcceptLoop fwd ctx id)) (body (AcceptLoop fwd ctx id)) w
     = (Ret tt, w', map (ListenerHandler fwd ctx id) conns)
     /\ listener w' = rest
     /\ fired w' = fired w ++ [SigError (Some e)]
     /\ errc w' = match errc w with None => Some (Some e) | Some x => Some x end)
  /\ forall c, In c conns ->
       (forall w1 w2,
          runs (snd (start (ListenerHandler fwd ctx id c)), w1) (Ret tt, w2) ->
          exists r wm,
            runs (handleConnection fwd ctx id c, w1) (Ret r, wm)
            /\ runs (match r with Some _ => sendError r | None => Ret tt end, wm) (Ret tt, w2)
            /\ closes Local (rwc_id c) (trace w2) = S (closes Local (rwc_id c) (trace w1))
            /\ opens (trace w2) = S (opens (trace w1))
            /\ sent w2 = sent wm ++ match r with Some _ => [r] | None => [] end)
       /\ (forall w1, exists w2,
             runs (snd (start (ListenerHandler fwd ctx id c)), w1) (Ret tt, w2)).
Proof.
  intros Hl Hfuel. split.
  - exact (@acceptLoop_run_to_first_error fwd ctx id conns bad e rest w fuel Hl Hfuel).
  - intros c _. split.
    + intros w1 w2 Hrun. unfold start, body in Hrun. cbn [snd] in Hrun.
      destruct (@runs_bind_inv error unit
                  (fun err => match err with Some _ => sendError err | None => Ret tt end)
                  tt w2 _ Hrun (handleConnection fwd ctx id c) w1 eq_refl)
        as (r & wm & H1 & H2).
      exists r, wm. split; [exact H1|]. split; [exact H2|].
      assert (Hwm : closes Local (rwc_id c) (trace wm) = S (closes Local (rwc_id c) (trace w1))
                    /\ opens (trace wm) = S (opens (trace w1))).
      { apply handleConnection_runs in H1.
        destruct (openStreamingChannel (session fwd) (opened w1) id) as [channel [e0|]].
        - destruct H1 as (_ & Ht). rewrite Ht, closes_same_Local. split; reflexivity.
        - destruct H1 as (_ & _ & Ht). rewrite Ht, closes_same_Local. split; reflexivity. }
      destruct Hwm as [Hc Ho].
      destruct r as [e0|].
      * apply sendError_runs in H2. destruct H2 as [Ht Hs].
        rewrite Ht, Hc, Ho, Hs. repeat split; reflexivity.
      * pose proof (runs_Ret_sent H2) as Hs. apply runs_Ret_inv in H2.
        destruct H2 as (_ & Ht & _). rewrite Ht, Hc, Ho, Hs, app_nil_r.
        repeat split; reflexivity.
    + intros w1.
      destruct (handleConnection_returns fwd ctx id c w1) as (r & wm & H1).
      unfold start, body. cbn [snd].
      destruct r as [e0|].
      * exists (offer (Some e0) wm).
        apply (@runs_bind error unit
                 (fun err => match err with Some _ => sendError err | None => Ret tt end)
                 (Some e0) wm _ (handleConnection fwd ctx id c, w1) H1). cbn.
        eapply runs_step; [reflexivity|]. apply runs_refl.
      * exists wm.
        apply (@runs_bind error unit
                 (fun err => match err with Some _ => sendError err | None => Ret tt end)
                 None wm _ (handleConnection fwd ctx id c, w1) H1). cbn.
        apply runs_refl.
Qed.

(** C8 at work on a listener that yields one connection and is then
    closed. *)
Lemma acceptLoop_dispatches_until_first_error_witness :
  listener (new_world false one_conn_listener)
  = map (fun c => (c, nil_error)) [web_conn] ++ (web_conn, Some listener_closed) :: []
  /\ 3 * length [web_conn] + 2 <= 5
  /\ (exists w',
        run_thread 5 (body (AcceptLoop web_fwd std_ctx 7)) (body (AcceptLoop web_fwd std_ctx 7))
                   (new_world false one_conn_listener)
        = (Ret tt, w', map (ListenerHandler web_fwd std_ctx 7) [web_conn])
        /\ listener w' = []
        /\ fired w' = fired (new_world false one_conn_listener)
                      ++ [SigError (Some listener_closed)]
        /\ errc w' = match errc (new_world false one_conn_listener) with
                     | None => Some (Some listener_closed)
                     | Some x => Some x
                     end)
  /\ exists w2, runs (snd (start (ListenerHandler web_fwd std_ctx 7 web_conn)), fresh)
                     (Ret tt, w2).
Proof.
  assert (Hl : listener (new_world false one_conn_listener)
               = map (fun c => (c, nil_error)) [web_conn]
                 ++ (web_conn, Some listener_closed) :: []).
  { reflexivity. }
  assert (Hfuel : 3 * length [web_conn] + 2 <= 5).
  { cbn. lia. }
  split; [exact Hl|]. split; [exact Hfuel|]. split.
  - exact (proj1 (@acceptLoop_dispatches_until_first_error web_fwd std_ctx 7 [web_conn]
                    web_conn listener_closed [] (new_world false one_conn_listener) 5
                    Hl Hfuel)).
  - exact (proj2 (proj2 (@acceptLoop_dispatches_until_first_error web_fwd std_ctx 7
                           [web_conn] web_conn listener_closed []
                           (new_world false one_conn_listener) 5 Hl Hfuel)
                    web_conn (or_introl eq_refl)) fresh).
Defined.

(** ** The relay *)

Lemma upd_same (T : Type) (f : side -> T) sd v : upd f sd v sd = v.
Proof. unfold upd. destruct sd; reflexivity. Qed.

Lemma upd_other (T : Type) (f : side -> T) sd sd' v : sd' <> sd -> upd f sd v sd' = f sd'.
Proof. unfold upd. destruct sd, sd'; cbn; congruence. Qed.

Lemma all_bytes_cons r rest : all_bytes (r :: rest) = fst r ++ all_bytes rest.
Proof. reflexivity. Qed.

Lemma length_zero_nil (T : Type) (l : list T) :
  (0 <? Z.of_nat (length l))%Z = false -> l = [].
Proof.
  destruct l as [|x l]; [reflexivity|].
  intros H. apply Z.ltb_ge in H. cbn [length] in H. lia.
Qed.

(** The end of a turn keeps a direction in step when the destination holds
    all that was taken. *)
Lemma dir_ok_after_read dst src w er :
  all_bytes (rwc_reads (stream_rwc src))
  = taken w (stream_side src) ++ all_bytes (inbox w (stream_side src)) ->
  outbox w (stream_side dst) = taken w (stream_side src) ->
  until_end (rwc_reads (stream_rwc src))
  = taken w (stream_side src)
    ++ match er with
       | None => until_end (inbox w (stream_side src))
       | Some _ => []
       end ->
  dir_ok dst src w (after_read er).
Proof.
  intros Hall Hout Hue. split; [exact Hall|].
  destruct er as [e|]; cbn [after_read].
  - right. right. eexists. split; [reflexivity|]. split.
    + exists []. rewrite app_nil_r. symmetry. exact Hout.
    + intros _. rewrite Hue, app_nil_r. exact Hout.
  - left. split; [right; reflexivity|]. split; assumption.
Qed.

(** A step of a copy keeps its direction in step, and touches nothing but
    its source's reading end and its destination's writing end. *)
Lemma dir_step dst src w p p' w' :
  dir_ok dst src w p ->
  cstep (copy_turn dst src) p w = Some (p', w') ->
  dir_ok dst src w' p'
  /\ (forall sd, sd <> stream_side src ->
        inbox w' sd = inbox w sd /\ taken w' sd = taken w sd)
  /\ (forall sd, sd <> stream_side dst -> outbox w' sd = outbox w sd).
Proof.
  intros [Hall Hforms] Hstep.
  destruct Hforms as [[Hp [Hout Hue]] | [(buf & er & -> & Hout & Hue) | (e & -> & _)]].
  - destruct Hp as [-> | ->].
    + cbn [cstep copy_turn cperform] in Hstep.
      destruct (inbox w (stream_side src)) as [|[buf er] rest] eqn:Ein; [discriminate|].
      inversion Hstep; subst p' w'; clear Hstep.
      rewrite all_bytes_cons in Hall. cbn [fst] in Hall.
      split; [|split].
      * unfold on_chunk. cbn [fst snd].
        destruct (0 <? Z.of_nat (length buf))%Z eqn:Elen.
        -- split.
           ++ cbn [inbox taken outbox]. rewrite !upd_same, <- app_assoc. exact Hall.
           ++ right. left. exists buf, er. split; [reflexivity|].
              cbn [inbox taken outbox]. rewrite !upd_same. split.
              ** rewrite Hout. reflexivity.
              ** rewrite Hue. cbn [until_end].
                 destruct er; rewrite <- ?app_assoc, ?app_nil_r; reflexivity.
        -- apply length_zero_nil in Elen. subst buf.
           apply dir_ok_after_read; cbn [inbox taken outbox]; rewrite ?upd_same, ?app_nil_r.
           ++ exact Hall.
           ++ exact Hout.
           ++ rewrite Hue. cbn [until_end]. destruct er; reflexivity.
      * intros sd Hsd. cbn [inbox taken]. rewrite !upd_other by exact Hsd. split; reflexivity.
      * intros sd _. reflexivity.
    + cbn [cstep] in Hstep. inversion Hstep; subst p' w'; clear Hstep.
      split; [|split].
      * split; [exact Hall|]. left. split; [left; reflexivity|]. split; assumption.
      * intros sd _. split; reflexivity.
      * intros sd _. reflexivity.
  - cbn [cstep at_write cperform] in Hstep.
    inversion Hstep; subst p' w'; clear Hstep.
    set (res := rwc_write (stream_rwc dst) (outbox w (stream_side dst)) buf).
    split; [|split].
    + unfold after_write.
      assert (Hrej : forall e : error,
                 e <> None ->
                 dir_ok dst src
                   (mkPipes (inbox w) (taken w)
                      (upd (outbox w) (stream_side dst)
                         (outbox w (stream_side dst) ++ firstn (Z.to_nat (fst res)) buf)))
                   (CRet e)).
      { intros e He. split; [exact Hall|]. right. right. exists e.
        split; [reflexivity|]. cbn [inbox taken outbox]. rewrite upd_same. split.
        - exists (skipn (Z.to_nat (fst res)) buf).
          rewrite <- app_assoc, firstn_skipn. symmetry. exact Hout.
        - intros E. contradiction. }
      destruct ((fst res <? 0) || (Z.of_nat (length buf) <? fst res))%Z eqn:Ebad.
      * destruct (snd res) as [e|] eqn:Eew; apply Hrej; discriminate.
      * destruct (snd res) as [e|] eqn:Eew; [apply Hrej; discriminate|].
        destruct (Z.of_nat (length buf) =? fst res)%Z eqn:Efull; cbn [negb];
          [|apply Hrej; discriminate].
        apply Z.eqb_eq in Efull.
        assert (Hall_in : firstn (Z.to_nat (fst res)) buf = buf).
        { rewrite <- Efull, Nat2Z.id. apply firstn_all. }
        rewrite Hall_in.
        apply dir_ok_after_read; cbn [inbox taken outbox]; rewrite ?upd_same.
        -- exact Hall.
        -- exact Hout.
        -- exact Hue.
    + intros sd _. split; reflexivity.
    + intros sd Hsd. cbn [outbox]. rewrite upd_other by exact Hsd. reflexivity.
  - discriminate.
Qed.

(** A direction depends on its source's reading end and its destination's
    writing end only. *)
Lemma dir_ok_frame dst src w w' p :
  inbox w' (stream_side src) = inbox w (stream_side src) ->
  taken w' (stream_side src) = taken w (stream_side src) ->
  outbox w' (stream_side dst) = outbox w (stream_side dst) ->
  dir_ok dst src w p -> dir_ok dst src w' p.
Proof.
  unfold dir_ok. intros -> -> ->. exact (fun H => H).
Qed.

Lemma relay_inv_step conn channel i r r' :
  relay_inv conn channel r -> relay_step i r = Some r' -> relay_inv conn channel r'.
Proof.
  intros (p1 & p2 & Hpool & H1 & H2) Hstep.
  unfold relay_step in Hstep. rewrite Hpool in Hstep.
  destruct i as [|[|i]]; cbn [nth_error] in Hstep.
  - destruct (cstep (copy_turn (LocalConn conn) (RemoteChannel channel)) p1 (r_pipes r))
      as [[p' w']|] eqn:Ec; [|discriminate].
    inversion Hstep; subst r'; clear Hstep.
    destruct (dir_step H1 Ec) as (H1' & Hin & Hout).
    exists p', p2. cbn [r_pool r_pipes replace_nth]. split; [reflexivity|]. split; [exact H1'|].
    destruct (Hin Local) as [Ei Et]; [cbn; discriminate|].
    apply (dir_ok_frame (w := r_pipes r)); cbn [stream_side]; try assumption.
    apply Hout. cbn. discriminate.
  - destruct (cstep (copy_turn (RemoteChannel channel) (LocalConn conn)) p2 (r_pipes r))
      as [[p' w']|] eqn:Ec; [|discriminate].
    inversion Hstep; subst r'; clear Hstep.
    destruct (dir_step H2 Ec) as (H2' & Hin & Hout).
    exists p1, p'. cbn [r_pool r_pipes replace_nth]. split; [reflexivity|]. split; [|exact H2'].
    destruct (Hin Remote) as [Ei Et]; [cbn; discriminate|].
    apply (dir_ok_frame (w := r_pipes r)); cbn [stream_side]; try assumption.
    apply Hout. cbn. discriminate.
  - destruct i; discriminate.
Qed.

Lemma relay_inv_exec conn channel sched : forall r r',
  relay_inv conn channel r -> relay_exec sched r = Some r' -> relay_inv conn channel r'.
Proof.
  induction sched as [|i sched IH]; intros r r' Hinv Hexec; cbn [relay_exec] in Hexec.
  - inversion Hexec; subst r'. exact Hinv.
  - destruct (relay_step i r) as [r1|] eqn:Es; [|discriminate].
    exact (IH _ _ (@relay_inv_step conn channel i r r1 Hinv Es) Hexec).
Qed.

Lemma dir_ok_start dst src w :
  inbox w (stream_side src) = rwc_reads (stream_rwc src) ->
  taken w (stream_side src) = [] ->
  outbox w (stream_side dst) = [] ->
  dir_ok dst src w (copy_turn dst src).
Proof.
  intros Ei Et Eo. unfold dir_ok. rewrite Ei, Et, Eo. cbn [app].
  split; [reflexivity|]. left. split; [left; reflexivity|]. split; reflexivity.
Qed.

(** What a direction in step says of its copy. *)
Lemma dir_ok_reading dst src w p :
  dir_ok dst src w p ->
  (exists rest, taken w (stream_side src) = outbox w (stream_side dst) ++ rest)
  /\ all_bytes (rwc_reads (stream_rwc src))
     = taken w (stream_side src) ++ all_bytes (inbox w (stream_side src))
  /\ (cstep (copy_turn dst src) p w = None ->
      (exists e, p = CRet e)
      \/ (p = copy_turn dst src
          /\ inbox w (stream_side src) = []
          /\ outbox w (stream_side dst) = taken w (stream_side src)))
  /\ (p = CRet nil_error ->
      outbox w (stream_side dst) = until_end (rwc_reads (stream_rwc src))).
Proof.
  intros [Hall Hforms]. split; [|split; [exact Hall|]].
  - destruct Hforms as [[_ [Hout _]] | [(buf & er & _ & Hout & _) | (e & _ & Hpre & _)]].
    + exists []. rewrite app_nil_r. symmetry. exact Hout.
    + exists buf. symmetry. exact Hout.
    + exact Hpre.
  - destruct Hforms as [[Hp [Hout _]] | [(buf & er & -> & _) | (e & -> & _ & Hnil)]].
    + destruct Hp as [-> | ->].
      * split.
        -- intros Hstuck. right. split; [reflexivity|]. split; [|exact Hout].
           cbn [cstep copy_turn cperform] in Hstuck.
           destruct (inbox w (stream_side src)); [reflexivity|discriminate].
        -- discriminate.
      * split; discriminate.
    + split; discriminate.
    + split.
      * intros _. left. exists e. reflexivity.
      * intros E. inversion E; subst e. apply Hnil. reflexivity.
Qed.

Lemma handler_events_opened fwd ctx id conn channel w :
  openStreamingChannel (session fwd) (opened w) id = (channel, nil_error) ->
  handler_events fwd ctx id conn w
  = [EvGoCopy (RemoteChannel channel) (LocalConn conn);
     EvGoCopy (LocalConn conn) (RemoteChannel channel);
     EvOpenChannel id].
Proof.
  intros Hopen. unfold handler_events, events_since, handleConnection, defer.
  cbn [run_thread tstep bind call perform spawned app]. rewrite Hopen.
  unfold nil_error.
  cbn [run_thread tstep bind call perform spawned app fst snd trace log bump_opened
       closeChannel length].
  replace (S (S (S (length (trace w)))) - length (trace w)) with 3 by lia.
  reflexivity.
Qed.


